(** * Virtual concat MTD driver: group matching and lifecycle

    A shallow embedding of [drivers/mtd/mtd_virt_concat.c] (with the
    declarations of [include/linux/mtd/concat.h]) and the properties of
    its registry of concatenation groups.

    Conventions of the embedding:
    - a C [int] or [unsigned int] is a [Z]; conversions between the two
      are written out with [to_uint] and [to_int];
    - a pointer is an [option]: [None] is [NULL];
    - an array obtained from [kcalloc] is a list of its cells;
    - the intrusive list [concat_node_list] is the list of its entries,
      each entry being either the live item or a dangling link to an item
      that was passed to [kfree] without being unlinked;
    - calls that leave this file (the MTD core, the concatenation engine,
      the device-tree helpers) are recorded as events, and the values they
      return are supplied by the environment;
    - a run that dereferences [NULL], reads a freed item or indexes an
      array outside its bounds has no defined result: it is a [Fault]. *)

From Stdlib Require Import ZArith Ascii String List Bool Lia.
From stdpp Require Import base list.
Import ListNotations.

Open Scope Z_scope.

(** ** Machine integers and error numbers *)

Definition INT_MAX : Z := 2147483647.
Definition INT_MIN : Z := -2147483648.

(** Conversion of an [int] to [unsigned int]. *)
Definition to_uint (z : Z) : Z := z mod 4294967296.

(** Wrap-around of an [int] (the kernel is built with wrapping overflow). *)
Definition to_int (z : Z) : Z := (z + 2147483648) mod 4294967296 - 2147483648.

Definition is_int (z : Z) : Prop := INT_MIN <= z <= INT_MAX.

Definition ENOMEM : Z := 12.
Definition ENXIO : Z := 6.

Definition MIN_DEV_PER_CONCAT : Z := 2.

(** ** Faults and results *)

Inductive fault : Set :=
| NullDeref
| UseAfterFree
| OutOfBounds.

Inductive result (A : Type) : Type :=
| Ok (a : A)
| Fault (f : fault).

Arguments Ok {A} a.
Arguments Fault {A} f.

#[global] Instance result_ret : MRet result := fun A a => Ok a.

#[global] Instance result_bind : MBind result := fun A B k r =>
  match r with
  | Ok a => k a
  | Fault f => Fault f
  end.

(** Read of cell [i] of an array. *)
Definition array_get {A : Type} (arr : list A) (i : nat) : result A :=
  match arr !! i with
  | Some a => Ok a
  | None => Fault OutOfBounds
  end.

(** Dereference of a pointer. *)
Definition deref {A : Type} (p : option A) : result A :=
  match p with
  | Some a => Ok a
  | None => Fault NullDeref
  end.

(** ** Data model *)

(** Identity of a [struct device_node]. *)
Definition device_node : Set := positive.

(** The part of [struct device] this driver touches. *)
Record device : Set := {
  parent : option positive;
  of_node : option device_node
}.

(** The part of [struct mtd_info] this driver touches. *)
Record mtd_info : Set := {
  name : string;
  dev : device
}.

(** [struct mtd_concat].  Its embedded [mtd] is only ever used through its
    address, which events name by the position of the owning item. *)
Record mtd_concat : Set := {
  num_subdev : Z;
  subdev : list (option mtd_info)
}.

(** [struct mtd_virt_concat_node]; the list linkage [head] is the position
    in [concat_node_list]. *)
Record mtd_virt_concat_node : Set := {
  count : Z;
  nodes : list (option device_node);
  concat : option mtd_concat
}.

(** An entry linked into [concat_node_list]. *)
Inductive slot : Set :=
| Live (item : mtd_virt_concat_node)
| Freed.

(** A [struct mtd_info *] handed to the MTD core or to the engine. *)
Inductive mtd_ref : Set :=
| Embedded (pos : nat)      (* [&item->concat->mtd] of the item at [pos] *)
| Built (m : mtd_info).     (* a device returned by [mtd_concat_create] *)

(** Calls that leave the driver. *)
Inductive event : Set :=
| EvPutMtdDevice (d : option mtd_info)
| EvOfNodePut (n : option device_node)
| EvMtdDeviceUnregister (m : mtd_ref)
| EvMtdConcatDestroy (m : mtd_ref)
| EvMtdConcatCreate (devs : list (option mtd_info)) (num_devs : Z) (nm : string)
| EvMtdDeviceRegister (m : mtd_info).

(** ** [mtd_virt_concat_add] *)

(** The inner loop
    [for (idx = 0; idx < item->count; idx++)
       if (item->nodes[idx] == mtd->dev.of_node) ...]:
    [Ok true] when some cell equals the device's node. *)
Fixpoint match_node (arr : list (option device_node)) (key : option device_node)
  (idx : nat) (todo : nat) : result bool :=
  match todo with
  | O => Ok false
  | S todo' =>
      nd ← array_get arr idx;
      if decide (nd = key) then Ok true else match_node arr key (S idx) todo'
  end.

(** [concat->subdev[concat->num_subdev++] = mtd]. *)
Definition store_subdev (c : mtd_concat) (mtd : mtd_info) : result mtd_concat :=
  let i := num_subdev c in
  if (0 <=? i) && (i <? Z.of_nat (length (subdev c))) then
    Ok {| num_subdev := to_int (i + 1);
          subdev := <[Z.to_nat i := Some mtd]> (subdev c) |}
  else Fault OutOfBounds.

Fixpoint mtd_virt_concat_add (l : list slot) (mtd : mtd_info)
  : result (bool * list slot) :=
  match l with
  | [] => Ok (false, [])
  | Freed :: _ => Fault UseAfterFree
  | Live item :: rest =>
      c ← deref (concat item);
      if count item =? to_uint (num_subdev c) then Ok (false, l)
      else
        hit ← match_node (nodes item) (of_node (dev mtd)) 0 (Z.to_nat (count item));
        if hit : bool then
          c' ← store_subdev c mtd;
          Ok (true, Live {| count := count item; nodes := nodes item;
                            concat := Some c' |} :: rest)
        else
          '(b, rest') ← mtd_virt_concat_add rest mtd;
          Ok (b, Live item :: rest')
  end.

(** ** Releasing members and expected nodes *)

(** [for (i = 0; i < concat->num_subdev; i++) put_mtd_device(concat->subdev[i]);] *)
Fixpoint put_loop (arr : list (option mtd_info)) (i : nat) (todo : nat)
  : result (list event) :=
  match todo with
  | O => Ok []
  | S todo' =>
      d ← array_get arr i;
      evs ← put_loop arr (S i) todo';
      Ok (EvPutMtdDevice d :: evs)
  end.

Definition mtd_virt_concat_put_mtd_devices (c : mtd_concat) : result (list event) :=
  put_loop (subdev c) 0 (Z.to_nat (num_subdev c)).

(** [for (i = 0; i < item->count; i++) of_node_put(item->nodes[i]);] *)
Fixpoint of_node_put_loop (arr : list (option device_node)) (i : nat) (todo : nat)
  : result (list event) :=
  match todo with
  | O => Ok []
  | S todo' =>
      nd ← array_get arr i;
      evs ← of_node_put_loop arr (S i) todo';
      Ok (EvOfNodePut nd :: evs)
  end.

(** [mtd_virt_concat_destroy_joins]: the walk over the list, [pos] being
    the position of the head of [l].  [kfree(mtd->name)] frees the name of
    the embedded [mtd], which this file never sets ([kzalloc] left it
    [NULL]), so it has no effect. *)
Fixpoint destroy_joins_from (pos : nat) (l : list slot) : result (list event) :=
  match l with
  | [] => Ok []
  | Freed :: _ => Fault UseAfterFree
  | Live item :: rest =>
      match concat item with
      | Some c =>
          puts ← mtd_virt_concat_put_mtd_devices c;
          more ← destroy_joins_from (S pos) rest;
          Ok (EvMtdDeviceUnregister (Embedded pos)
                :: EvMtdConcatDestroy (Embedded pos) :: puts ++ more)
      | None => destroy_joins_from (S pos) rest
      end
  end.

Definition mtd_virt_concat_destroy_joins (l : list slot) : result (list event) :=
  destroy_joins_from 0 l.

(** [mtd_virt_concat_destroy_items]: every item is freed and none is
    unlinked, so each entry stays in the list as a dangling link. *)
Fixpoint mtd_virt_concat_destroy_items (l : list slot)
  : result (list event * list slot) :=
  match l with
  | [] => Ok ([], [])
  | Freed :: _ => Fault UseAfterFree
  | Live item :: rest =>
      evs ← of_node_put_loop (nodes item) 0 (Z.to_nat (count item));
      '(more, rest') ← mtd_virt_concat_destroy_items rest;
      Ok (evs ++ more, Freed :: rest')
  end.

(** ** Configuration scan *)

(** A device-tree node carrying the [part-concat] property, seen through
    the helpers the driver calls on it: [of_device_is_available],
    [of_count_phandle_with_args(parts, CONCAT_PROP, NULL)] and
    [of_parse_phandle(parts, CONCAT_PROP, i)]; [dt_self] is the node's own
    identity.  The helpers belong to the device-tree core, so their
    results are inputs here. *)
Record dt_node : Type := {
  dt_self : device_node;
  dt_available : bool;
  dt_phandle_count : Z;
  dt_parse_phandle : Z -> option device_node
}.

(** The allocator: the outcomes of the coming [kzalloc] / [kcalloc] /
    [kmalloc] calls, in order; past the end every allocation succeeds. *)
Definition kalloc (heap : list bool) : bool * list bool :=
  match heap with
  | [] => (true, [])
  | b :: heap' => (b, heap')
  end.

(** [mtd_virt_concat_create_item(parts, count)] with [count] already
    converted to [unsigned int]. *)
Definition mtd_virt_concat_create_item (parts : dt_node) (cnt : Z)
  (heap : list bool) (l : list slot) : Z * list bool * list slot :=
  let '(item_ok, heap) := kalloc heap in
  if negb item_ok then (- ENOMEM, heap, l) else
  let '(nodes_ok, heap) := kalloc heap in
  if negb nodes_ok then (- ENOMEM, heap, l) else
  let item_nodes :=
    map (fun i => dt_parse_phandle parts (Z.of_nat i)) (seq 0 (Z.to_nat cnt)) in
  let '(concat_ok, heap) := kalloc heap in
  if negb concat_ok then (- ENOMEM, heap, l) else
  let '(subdev_ok, heap) := kalloc heap in
  if negb subdev_ok then (- ENOMEM, heap, l) else
  let c := {| num_subdev := 0; subdev := replicate (Z.to_nat cnt) None |} in
  (0, heap, l ++ [Live {| count := cnt; nodes := item_nodes; concat := Some c |}]).

(** Outcome of the [do ... while (parts)] loop of
    [mtd_virt_concat_node_create]. *)
Inductive scan_outcome : Type :=
| ScanDone (cnt : Z) (heap : list bool) (l : list slot)
| ScanFailed (ret : Z) (parts : dt_node) (heap : list bool) (l : list slot).

(** The loop over the nodes that [of_find_node_with_property] yields, then
    [NULL].  [of_device_is_available(NULL)] is false, so the last round
    reaches [continue] and the test [while (parts)] ends the loop with
    [count] as the last available node left it. *)
Fixpoint scan_dt (dt : list dt_node) (cnt : Z) (heap : list bool) (l : list slot)
  : scan_outcome :=
  match dt with
  | [] => ScanDone cnt heap l
  | parts :: more =>
      if negb (dt_available parts) then scan_dt more cnt heap l
      else
        let cnt := dt_phandle_count parts in
        if cnt <? MIN_DEV_PER_CONCAT then scan_dt more cnt heap l
        else
          let '(ret, heap, l) :=
            mtd_virt_concat_create_item parts (to_uint cnt) heap l in
          if negb (ret =? 0) then ScanFailed ret parts heap l
          else scan_dt more cnt heap l
  end.

(** The driver's state: the registry and the calls made so far. *)
Record kstate : Type := {
  concat_node_list : list slot;
  trace : list event
}.

Definition init_state : kstate := {| concat_node_list := []; trace := [] |}.

(** The label [destroy_items:] of [mtd_virt_concat_node_create]. *)
Definition node_create_fail (ret : Z) (l : list slot) (tr : list event)
  : result (Z * kstate) :=
  '(evs, l') ← mtd_virt_concat_destroy_items l;
  Ok (ret, {| concat_node_list := l'; trace := tr ++ evs |}).

(** [mtd_virt_concat_node_create]; [count0] is the indeterminate initial
    value of the local [count]. *)
Definition mtd_virt_concat_node_create (dt : list dt_node) (count0 : Z)
  (heap : list bool) (st : kstate) : result (Z * kstate) :=
  match concat_node_list st with
  | _ :: _ => Ok (0, st)
  | [] =>
      match scan_dt dt count0 heap [] with
      | ScanFailed ret parts _ l =>
          node_create_fail ret l (trace st ++ [EvOfNodePut (Some (dt_self parts))])
      | ScanDone cnt heap l =>
          (* here [parts] is [NULL] *)
          let '(concat_ok, heap) := kalloc heap in
          if negb concat_ok then
            node_create_fail (- ENOMEM) l (trace st ++ [EvOfNodePut None])
          else
            let '(subdev_ok, heap) := kalloc heap in
            if negb subdev_ok then
              node_create_fail (- ENOMEM) l (trace st ++ [EvOfNodePut None])
            else Ok (cnt, {| concat_node_list := l; trace := trace st |})
      end
  end.

(** ** Join construction *)

(** The two conversions [%s] of [snprintf] / [sprintf]: each [%s] of the
    format is replaced by the next argument. *)
Fixpoint sprintf (fmt : string) (args : list string) : string :=
  match fmt with
  | EmptyString => EmptyString
  | String "%"%char (String "s"%char fmt') =>
      match args with
      | a :: args' => (a ++ sprintf fmt' args')%string
      | [] => sprintf fmt' []
      end
  | String ch fmt' => String ch (sprintf fmt' args)
  end.

(** The concatenation engine and the MTD core, as far as
    [mtd_virt_concat_create_join] consults them. *)
Record mtd_core : Type := {
  mtd_concat_create : list (option mtd_info) -> Z -> string -> option mtd_info;
  mtd_device_register : mtd_info -> Z
}.

(** What one round of the loop of [mtd_virt_concat_create_join] does. *)
Inductive round : Type :=
| Next (heap : list bool) (tr : list event)
| Return (ret : Z) (tr : list event).

(** The body of the loop for one item. *)
Definition create_join_item (core : mtd_core) (item : mtd_virt_concat_node)
  (heap : list bool) (tr : list event) : result round :=
  c ← deref (concat item);
  d0 ← array_get (subdev c) 0 ≫= deref;
  d1 ← array_get (subdev c) 1 ≫= deref;
  let args := [name d0; name d1;
               if num_subdev c >? MIN_DEV_PER_CONCAT then "-+" else ""]%string in
  let name_sz := Z.of_nat (String.length (sprintf "%s-%s%s-concat" args)) in
  let '(name_ok, heap) := kalloc heap in
  if negb name_ok then
    puts ← mtd_virt_concat_put_mtd_devices c;
    Ok (Return (- ENOMEM) (tr ++ puts))
  else
    let nm := sprintf "%s-%s%s-concat" args in
    let tr := tr ++ [EvMtdConcatCreate (subdev c) (num_subdev c) nm] in
    match mtd_concat_create core (subdev c) (num_subdev c) nm with
    | None => Ok (Return (- ENXIO) tr)
    | Some built =>
        p0 ← array_get (subdev c) 0 ≫= deref;
        let mtd := {| name := name built; dev := dev p0 |} in
        let tr := tr ++ [EvMtdDeviceRegister mtd] in
        let ret := mtd_device_register core mtd in
        if negb (ret =? 0) then
          Ok (Return ret (tr ++ [EvMtdConcatDestroy (Built mtd)]))
        else Ok (Next heap tr)
    end.

Fixpoint create_join_from (core : mtd_core) (l : list slot)
  (heap : list bool) (tr : list event) : result (Z * list event) :=
  match l with
  | [] => Ok (0, tr)
  | Freed :: _ => Fault UseAfterFree
  | Live item :: rest =>
      r ← create_join_item core item heap tr;
      match r with
      | Next heap' tr' => create_join_from core rest heap' tr'
      | Return ret tr' => Ok (ret, tr')
      end
  end.

Definition mtd_virt_concat_create_join (core : mtd_core) (heap : list bool)
  (st : kstate) : result (Z * kstate) :=
  '(ret, tr) ← create_join_from core (concat_node_list st) heap (trace st);
  Ok (ret, {| concat_node_list := concat_node_list st; trace := tr |}).

(** ** Teardown *)

Definition mtd_virt_concat_exit (st : kstate) : result kstate :=
  joins ← mtd_virt_concat_destroy_joins (concat_node_list st);
  '(evs, l') ← mtd_virt_concat_destroy_items (concat_node_list st);
  Ok {| concat_node_list := l'; trace := trace st ++ joins ++ evs |}.

(** [mtd_virt_concat_add] on the driver's state. *)
Definition offer (mtd : mtd_info) (st : kstate) : result (bool * kstate) :=
  '(b, l') ← mtd_virt_concat_add (concat_node_list st) mtd;
  Ok (b, {| concat_node_list := l'; trace := trace st |}).

(** ** Vocabulary of the specification *)

(** [expected]: the identifiers a group waits for, in declared order. *)
Definition expected (item : mtd_virt_concat_node) : list (option device_node) :=
  nodes item.

(** [members]: the filled cells of [subdev], in the order they were filled. *)
Definition members (c : mtd_concat) : list (option mtd_info) :=
  take (Z.to_nat (num_subdev c)) (subdev c).

(** A group is complete when it holds as many members as it expects. *)
Definition complete (item : mtd_virt_concat_node) : Prop :=
  exists c, concat item = Some c /\ length (members c) = length (expected item).

(** The identifier of [mtd] is one of those the group expects. *)
Definition expects (item : mtd_virt_concat_node) (mtd : mtd_info) : Prop :=
  of_node (dev mtd) ∈ expected item.

(** The shape [mtd_virt_concat_create_item] gives an item and
    [mtd_virt_concat_add] keeps. *)
Definition item_wf (item : mtd_virt_concat_node) : Prop :=
  exists c,
    concat item = Some c /\
    MIN_DEV_PER_CONCAT <= count item <= INT_MAX /\
    0 <= num_subdev c <= count item /\
    length (nodes item) = Z.to_nat (count item) /\
    length (subdev c) = Z.to_nat (count item) /\
    Forall is_Some (members c).

Definition slot_wf (s : slot) : Prop :=
  match s with
  | Live item => item_wf item
  | Freed => True
  end.

Definition registry_wf (l : list slot) : Prop := Forall slot_wf l.

(** A qualifying configuration node: available, with at least
    [MIN_DEV_PER_CONCAT] references. *)
Definition qualifying (p : dt_node) : bool :=
  dt_available p && (MIN_DEV_PER_CONCAT <=? dt_phandle_count p).

(** The item a qualifying node gives rise to. *)
Definition pending_item (p : dt_node) : mtd_virt_concat_node :=
  {| count := dt_phandle_count p;
     nodes := map (fun i => dt_parse_phandle p (Z.of_nat i))
                  (seq 0 (Z.to_nat (dt_phandle_count p)));
     concat := Some {| num_subdev := 0;
                       subdev := replicate (Z.to_nat (dt_phandle_count p)) None |} |}.

(** The value of the local [count] when the scan ends: the reference count
    of the last available node, or the initial value when there is none. *)
Fixpoint last_count (dt : list dt_node) (cnt : Z) : Z :=
  match dt with
  | [] => cnt
  | p :: more => last_count more (if dt_available p then dt_phandle_count p else cnt)
  end.

(** The operations of the driver as transitions of its state. *)
Inductive step : kstate -> kstate -> Prop :=
| step_node_create dt count0 heap st ret st' :
    Forall (fun p => is_int (dt_phandle_count p)) dt ->
    mtd_virt_concat_node_create dt count0 heap st = Ok (ret, st') ->
    step st st'
| step_add mtd st b st' :
    offer mtd st = Ok (b, st') ->
    step st st'
| step_create_join core heap st ret st' :
    mtd_virt_concat_create_join core heap st = Ok (ret, st') ->
    step st st'
| step_exit st st' :
    mtd_virt_concat_exit st = Ok st' ->
    step st st'.

Inductive reachable : kstate -> Prop :=
| reachable_init : reachable init_state
| reachable_step st st' : reachable st -> step st st' -> reachable st'.

(** Offering a sequence of devices, one call after the other. *)
Fixpoint offer_all (l : list slot) (devs : list mtd_info)
  : result (list bool * list slot) :=
  match devs with
  | [] => Ok ([], l)
  | d :: devs' =>
      '(b, l1) ← mtd_virt_concat_add l d;
      '(bs, l2) ← offer_all l1 devs';
      Ok (b :: bs, l2)
  end.

(** ** Auxiliary notions of the proofs *)

(** The item after [concat->subdev[concat->num_subdev++] = mtd]. *)
Definition accept (item : mtd_virt_concat_node) (c : mtd_concat) (mtd : mtd_info)
  : mtd_virt_concat_node :=
  {| count := count item;
     nodes := nodes item;
     concat := Some {| num_subdev := num_subdev c + 1;
                       subdev := <[Z.to_nat (num_subdev c) := Some mtd]> (subdev c) |} |}.

(** A group the scan walks past: live, still open, not expecting [mtd]. *)
Definition passed (mtd : mtd_info) (s : slot) : Prop :=
  exists item, s = Live item /\ item_wf item /\ ~ complete item /\ ~ expects item mtd.

Definition round_trace (r : round) : list event :=
  match r with
  | Next _ tr => tr
  | Return _ tr => tr
  end.

(** An allocator that never refuses. *)
Definition never_fails (heap : list bool) : Prop := Forall (fun b => b = true) heap.

(** No group holds more members than it expects. *)
Definition members_bounded (l : list slot) : Prop :=
  forall item c, Live item ∈ l -> concat item = Some c ->
    (length (members c) <= length (expected item))%nat
    /\ 0 <= num_subdev c <= count item.

(** Every entry is a live, well-formed item. *)
Definition registry_live (l : list slot) : Prop :=
  Forall (fun s => exists item, s = Live item /\ item_wf item) l.

(** What teardown does for the items from position [pos] on: for every
    item with a container (joined or not) it unregisters, destroys, then
    releases the members in arrival order. *)
Fixpoint teardown_calls (pos : nat) (l : list slot) : list event :=
  match l with
  | [] => []
  | Live item :: rest =>
      match concat item with
      | Some c =>
          EvMtdDeviceUnregister (Embedded pos)
            :: EvMtdConcatDestroy (Embedded pos)
            :: map EvPutMtdDevice (members c) ++ teardown_calls (S pos) rest
      | None => teardown_calls (S pos) rest
      end
  | Freed :: rest => teardown_calls (S pos) rest
  end.

(** ** Concrete devices and configurations used by the examples *)

Definition part (nm : string) (nd : option device_node) : mtd_info :=
  {| name := nm; dev := {| parent := Some 1%positive; of_node := nd |} |}.

(** A configuration node whose references resolve to [refs]. *)
Definition concat_group (self : device_node) (avail : bool)
  (refs : list (option device_node)) : dt_node :=
  {| dt_self := self;
     dt_available := avail;
     dt_phandle_count := Z.of_nat (length refs);
     dt_parse_phandle := fun i => nth (Z.to_nat i) refs None |}.

Definition node_A : device_node := 1%positive.
Definition node_B : device_node := 2%positive.
Definition node_C : device_node := 3%positive.
Definition node_D : device_node := 4%positive.

Definition dev_A : mtd_info := part "A" (Some node_A).
Definition dev_B : mtd_info := part "B" (Some node_B).
Definition dev_C : mtd_info := part "C" (Some node_C).
Definition dev_D : mtd_info := part "D" (Some node_D).

(** An engine that builds every device and a core that registers it. *)
Definition core_ok : mtd_core :=
  {| mtd_concat_create := fun _ _ nm => Some (part nm None);
     mtd_device_register := fun _ => 0 |}.

(** An engine that refuses to build. *)
Definition core_build_fails : mtd_core :=
  {| mtd_concat_create := fun _ _ _ => None;
     mtd_device_register := fun _ => 0 |}.

(** One group expecting [A; B]. *)
Definition dt_AB : list dt_node :=
  [concat_group 10%positive true [Some node_A; Some node_B]].

(** One group expecting [A; B; C]. *)
Definition dt_ABC : list dt_node :=
  [concat_group 10%positive true [Some node_A; Some node_B; Some node_C]].

(** Two groups, expecting [A; B] and [C; D]. *)
Definition dt_AB_CD : list dt_node :=
  [concat_group 10%positive true [Some node_A; Some node_B];
   concat_group 11%positive true [Some node_C; Some node_D]].

(** Runs an operation from a state, keeping the state it leaves. *)
Definition after {A : Type} (r : result (A * kstate)) (dflt : kstate) : kstate :=
  match r with
  | Ok (_, st) => st
  | Fault _ => dflt
  end.

Definition discovered (dt : list dt_node) : kstate :=
  after (mtd_virt_concat_node_create dt 0 [] init_state) init_state.

Definition offered (devs : list mtd_info) (st : kstate) : kstate :=
  fold_left (fun s d => after (offer d s) s) devs st.

(** The group of the scenario "expects [A; B; C], arrivals C, A, B". *)
Definition conc_CAB : mtd_concat :=
  {| num_subdev := 3; subdev := [Some dev_C; Some dev_A; Some dev_B] |}.

Definition item_CAB : mtd_virt_concat_node :=
  {| count := 3;
     nodes := [Some node_A; Some node_B; Some node_C];
     concat := Some conc_CAB |}.

Definition node_E : device_node := 5%positive.
Definition dev_E : mtd_info := part "E" (Some node_E).

(** A device without a configuration node. *)
Definition dev_anon : mtd_info := part "anon" None.

(** Two groups, expecting [D; E] and [A; B; C]. *)
Definition dt_DE_ABC : list dt_node :=
  [concat_group 10%positive true [Some node_D; Some node_E];
   concat_group 11%positive true [Some node_A; Some node_B; Some node_C]].

(** Two groups, expecting [A; B] and [C; unresolved reference]. *)
Definition dt_AB_Cnull : list dt_node :=
  [concat_group 10%positive true [Some node_A; Some node_B];
   concat_group 11%positive true [Some node_C; None]].

Definition group_AB_full : mtd_virt_concat_node :=
  {| count := 2; nodes := [Some node_A; Some node_B];
     concat := Some {| num_subdev := 2; subdev := [Some dev_A; Some dev_B] |} |}.

Definition group_CD_empty : mtd_virt_concat_node :=
  {| count := 2; nodes := [Some node_C; Some node_D];
     concat := Some {| num_subdev := 0; subdev := [None; None] |} |}.

Definition group_AB_half : mtd_virt_concat_node :=
  {| count := 2; nodes := [Some node_A; Some node_B];
     concat := Some {| num_subdev := 1; subdev := [Some dev_A; None] |} |}.

Definition group_DE_full : mtd_virt_concat_node :=
  {| count := 2; nodes := [Some node_D; Some node_E];
     concat := Some {| num_subdev := 2; subdev := [Some dev_D; Some dev_E] |} |}.

Definition group_ABC_empty : mtd_virt_concat_node :=
  {| count := 3; nodes := [Some node_A; Some node_B; Some node_C];
     concat := Some {| num_subdev := 0; subdev := [None; None; None] |} |}.

Definition group_Cnull_empty : mtd_virt_concat_node :=
  {| count := 2; nodes := [Some node_C; None];
     concat := Some {| num_subdev := 0; subdev := [None; None] |} |}.

Ltac not_complete :=
  let c := fresh "c" in
  let Hc := fresh "Hc" in
  let Hlen := fresh "Hlen" in
  intros (c & Hc & Hlen); simpl in Hc; injection Hc as <-; discriminate Hlen.

(** ** Notions used by the further properties *)

(** Two entries describe the same group: same count, same expected nodes. *)
Definition same_group (s s' : slot) : Prop :=
  match s, s' with
  | Live a, Live b => count a = count b /\ nodes a = nodes b
  | Freed, Freed => True
  | _, _ => False
  end.

(** The full shape of an item the driver has built and filled: the first
    [num_subdev] cells hold the devices [ms], each carrying an expected
    node; the other cells are still null. *)
Definition item_tidy (item : mtd_virt_concat_node) : Prop :=
  exists c ms,
    concat item = Some c /\
    MIN_DEV_PER_CONCAT <= count item <= INT_MAX /\
    length (nodes item) = Z.to_nat (count item) /\
    num_subdev c = Z.of_nat (length ms) /\
    num_subdev c <= count item /\
    subdev c = map Some ms ++ replicate (Z.to_nat (count item) - length ms)%nat None /\
    Forall (fun d => of_node (dev d) ∈ nodes item) ms.

Definition registry_tidy (l : list slot) : Prop :=
  Forall (fun s => exists item, s = Live item /\ item_tidy item) l.

(** Every entry is a dangling link. *)
Definition registry_dead (l : list slot) : Prop := Forall (fun s => s = Freed) l.

(** The requests made to the concatenation engine, in order: the array
    and the number of devices of each call to [mtd_concat_create]. *)
Definition build_requests (tr : list event) : list (list (option mtd_info) * Z) :=
  flat_map (fun e => match e with
                     | EvMtdConcatCreate devs n _ => [(devs, n)]
                     | _ => []
                     end) tr.

(** The devices handed to [mtd_device_register], in order. *)
Definition registrations (tr : list event) : list mtd_info :=
  flat_map (fun e => match e with
                     | EvMtdDeviceRegister m => [m]
                     | _ => []
                     end) tr.

(** One request per group of the registry: its array and its fill count. *)
Definition group_requests (l : list slot) : list (list (option mtd_info) * Z) :=
  flat_map (fun s => match s with
                     | Live item =>
                         match concat item with
                         | Some c => [(subdev c, num_subdev c)]
                         | None => []
                         end
                     | Freed => []
                     end) l.

(** An engine that builds whatever it is asked and a core that registers
    whatever it is given. *)
Definition core_succeeds (core : mtd_core) : Prop :=
  (forall devs n nm, is_Some (mtd_concat_create core devs n nm))
  /\ (forall m, mtd_device_register core m = 0).

(** The name built from the first two members and the fill count. *)
Definition concat_name (d0 d1 : mtd_info) (n : Z) : string :=
  (name d0 ++ "-" ++ name d1 ++
   (if n >? MIN_DEV_PER_CONCAT then "-+" else "") ++ "-concat")%string.

(** The releases of expected nodes, item after item. *)
Definition node_puts (l : list slot) : list event :=
  flat_map (fun s => match s with
                     | Live item => map EvOfNodePut (nodes item)
                     | Freed => []
                     end) l.

(** A core whose registration fails with [-EINVAL]. *)
Definition core_register_fails : mtd_core :=
  {| mtd_concat_create := fun _ _ nm => Some (part nm None);
     mtd_device_register := fun _ => -22 |}.

(** Two nodes, neither available. *)
Definition dt_none_available : list dt_node :=
  [concat_group 10%positive false [Some node_A; Some node_B];
   concat_group 11%positive false [Some node_C; Some node_D]].

(** Well-formedness of an item written out in full. *)
Ltac concrete_item_wf :=
  eexists; split; [reflexivity|]; simpl;
  unfold MIN_DEV_PER_CONCAT, INT_MAX;
  split; [lia|]; split; [lia|]; split; [reflexivity|]; split; [reflexivity|];
  unfold members; simpl; repeat constructor; eexists; reflexivity.

Ltac concrete_live :=
  repeat (constructor; [eexists; split; [reflexivity|concrete_item_wf]|]);
  try constructor.

(** A group the join loop can process: tidy, with at least two members. *)
Definition joinable (s : slot) : Prop :=
  exists item c,
    s = Live item /\ item_tidy item /\ concat item = Some c
    /\ MIN_DEV_PER_CONCAT <= num_subdev c.

(** Tidiness of an item written out in full, given its members. *)
Ltac concrete_item_tidy ms :=
  eexists; exists ms; split; [reflexivity|]; simpl;
  unfold MIN_DEV_PER_CONCAT, INT_MAX;
  split; [lia|]; split; [reflexivity|]; split; [reflexivity|];
  split; [lia|]; split; [reflexivity|]; repeat constructor.

(** A group expecting [A; B; C] that holds B and A only. *)
Definition conc_BA : mtd_concat :=
  {| num_subdev := 2; subdev := [Some dev_B; Some dev_A; None] |}.

Definition group_ABC_two : mtd_virt_concat_node :=
  {| count := 3; nodes := [Some node_A; Some node_B; Some node_C];
     concat := Some conc_BA |}.

Definition conc_AB : mtd_concat :=
  {| num_subdev := 2; subdev := [Some dev_A; Some dev_B] |}.

(** A registry of two groups: [A; B] complete, [A; B; C] holding B and A. *)
Definition st_AB_BA : kstate :=
  {| concat_node_list := [Live group_AB_full; Live group_ABC_two]; trace := [] |}.

(** The state a scan of [A; B], [C; D] leaves when its fifth allocation
    fails. *)
Definition st_failed_scan : kstate :=
  after (mtd_virt_concat_node_create dt_AB_CD 0 [true; true; true; true; false]
           init_state) init_state.

(** Two empty groups that each hold an unresolved reference: [A; null]
    and [C; null]. *)
Definition group_Anull_empty : mtd_virt_concat_node :=
  {| count := 2; nodes := [Some node_A; None];
     concat := Some {| num_subdev := 0; subdev := [None; None] |} |}.

Definition dt_Anull_Cnull : list dt_node :=
  [concat_group 10%positive true [Some node_A; None];
   concat_group 11%positive true [Some node_C; None]].

(** * Lemmas and theorems *)

(** ** Machine arithmetic *)

Lemma to_uint_small z : 0 <= z <= INT_MAX -> to_uint z = z.
Proof.
  intros H. unfold to_uint, INT_MAX in *. apply Z.mod_small. lia.
Qed.

Lemma to_int_small z : is_int z -> to_int z = z.
Proof.
  unfold is_int, to_int, INT_MIN, INT_MAX. intros H.
  rewrite Z.mod_small; lia.
Qed.

(** ** Arrays *)

Lemma array_get_lookup {A : Type} (arr : list A) i a :
  arr !! i = Some a -> array_get arr i = Ok a.
Proof. unfold array_get. intros ->. reflexivity. Qed.

Lemma take_succ_insert {A : Type} (arr : list A) i x :
  (i < length arr)%nat -> take (S i) (<[i:=x]> arr) = take i arr ++ [x].
Proof.
  intros Hi.
  rewrite (take_S_r _ _ x).
  - rewrite take_insert_ge; [reflexivity | lia].
  - apply list_lookup_insert_eq. exact Hi.
Qed.

(** The inner loop of [mtd_virt_concat_add] decides membership in the rest
    of the array. *)
Lemma match_node_spec arr key todo : forall idx,
  (idx + todo = length arr)%nat ->
  exists b, match_node arr key idx todo = Ok b /\
            (b = true <-> key ∈ drop idx arr).
Proof.
  induction todo as [|todo IH]; intros idx Hlen; simpl.
  - exists false. split; [reflexivity|].
    rewrite drop_ge by lia. split; [discriminate|]. intros H. inversion H.
  - destruct (lookup_lt_is_Some_2 arr idx) as [nd Hnd]; [lia|].
    rewrite (array_get_lookup _ _ _ Hnd). simpl.
    rewrite (drop_S _ _ _ Hnd).
    destruct (decide (nd = key)) as [->|Hne].
    + exists true. split; [reflexivity|]. split; [|reflexivity].
      intros _. apply list_elem_of_here.
    + destruct (IH (S idx)) as (b & Hb & Hiff); [lia|].
      exists b. split; [exact Hb|]. rewrite Hiff. split.
      * intros H. apply list_elem_of_further. exact H.
      * intros H. apply elem_of_cons in H as [H|H]; [congruence|exact H].
Qed.

(** ** One round of [mtd_virt_concat_add] on a well-formed item *)

Lemma members_length item c :
  item_wf item -> concat item = Some c ->
  length (members c) = Z.to_nat (num_subdev c).
Proof.
  intros (c0 & Hc & _ & Hn & _ & Hs & _) Hc'. rewrite Hc in Hc'.
  injection Hc' as ->. unfold members. rewrite length_take. lia.
Qed.

Lemma complete_iff item c :
  item_wf item -> concat item = Some c ->
  complete item <-> num_subdev c = count item.
Proof.
  intros Hwf Hc. pose proof (members_length _ _ Hwf Hc) as Hm.
  destruct Hwf as (c0 & Hc0 & Hcnt & Hn & Hnd & _).
  rewrite Hc in Hc0. injection Hc0 as <-.
  unfold complete, expected. split.
  - intros (c1 & Hc1 & Hlen). rewrite Hc in Hc1. injection Hc1 as <-.
    rewrite Hm, Hnd in Hlen. unfold MIN_DEV_PER_CONCAT in *. lia.
  - intros Heq. exists c. split; [exact Hc|]. rewrite Hm, Hnd, Heq. reflexivity.
Qed.

Lemma expects_dec item mtd : item_wf item ->
  exists b, match_node (nodes item) (of_node (dev mtd)) 0 (Z.to_nat (count item)) = Ok b
            /\ (b = true <-> expects item mtd).
Proof.
  intros (c & _ & _ & _ & Hnd & _).
  destruct (match_node_spec (nodes item) (of_node (dev mtd))
              (Z.to_nat (count item)) 0%nat) as (b & Hb & Hiff).
  - simpl. symmetry. exact Hnd.
  - exists b. split; [exact Hb|]. exact Hiff.
Qed.

Lemma store_subdev_ok item c mtd :
  item_wf item -> concat item = Some c -> num_subdev c <> count item ->
  store_subdev c mtd =
    Ok {| num_subdev := num_subdev c + 1;
          subdev := <[Z.to_nat (num_subdev c) := Some mtd]> (subdev c) |}.
Proof.
  intros (c0 & Hc0 & Hcnt & Hn & _ & Hs & _) Hc Hne.
  rewrite Hc in Hc0. injection Hc0 as <-.
  unfold store_subdev. unfold INT_MAX, MIN_DEV_PER_CONCAT in *.
  replace (0 <=? num_subdev c) with true by (symmetry; apply Z.leb_le; lia).
  replace (num_subdev c <? Z.of_nat (length (subdev c))) with true
    by (symmetry; apply Z.ltb_lt; lia).
  simpl. rewrite to_int_small; [reflexivity|].
  unfold is_int, INT_MIN, INT_MAX. lia.
Qed.

Lemma closed_test item c :
  item_wf item -> concat item = Some c ->
  (count item =? to_uint (num_subdev c)) = true <-> num_subdev c = count item.
Proof.
  intros (c0 & Hc0 & Hcnt & Hn & _) Hc.
  rewrite Hc in Hc0. injection Hc0 as <-.
  rewrite to_uint_small by lia. rewrite Z.eqb_eq. lia.
Qed.

Lemma accept_wf item c mtd :
  item_wf item -> concat item = Some c -> num_subdev c <> count item ->
  item_wf (accept item c mtd).
Proof.
  intros Hwf Hc Hne. pose proof Hwf as (c0 & Hc0 & Hcnt & Hn & Hnd & Hs & Hm).
  rewrite Hc in Hc0. injection Hc0 as <-.
  eexists. split; [reflexivity|]. simpl.
  split; [lia|]. split; [lia|]. split; [exact Hnd|]. split.
  - rewrite length_insert. exact Hs.
  - unfold members in *. simpl.
    replace (Z.to_nat (num_subdev c + 1)) with (S (Z.to_nat (num_subdev c))) by lia.
    rewrite take_succ_insert by lia.
    apply Forall_app. split; [exact Hm|]. constructor; [eexists; reflexivity|constructor].
Qed.

Lemma accept_members item c mtd :
  item_wf item -> concat item = Some c -> num_subdev c <> count item ->
  forall c', concat (accept item c mtd) = Some c' ->
  members c' = members c ++ [Some mtd].
Proof.
  intros (c0 & Hc0 & Hcnt & Hn & Hnd & Hs & Hm) Hc Hne c' Hc'.
  rewrite Hc in Hc0. injection Hc0 as <-.
  simpl in Hc'. injection Hc' as <-. unfold members. simpl.
  replace (Z.to_nat (num_subdev c + 1)) with (S (Z.to_nat (num_subdev c))) by lia.
  apply take_succ_insert. lia.
Qed.

(** The three ways a round on a well-formed item can go. *)
Lemma add_round_closed item c rest mtd :
  item_wf item -> concat item = Some c -> num_subdev c = count item ->
  mtd_virt_concat_add (Live item :: rest) mtd = Ok (false, Live item :: rest).
Proof.
  intros Hwf Hc Heq. simpl. rewrite Hc. simpl.
  apply (closed_test _ _ Hwf Hc) in Heq. rewrite Heq. reflexivity.
Qed.

Lemma add_round_match item c rest mtd :
  item_wf item -> concat item = Some c -> num_subdev c <> count item ->
  expects item mtd ->
  mtd_virt_concat_add (Live item :: rest) mtd
  = Ok (true, Live (accept item c mtd) :: rest).
Proof.
  intros Hwf Hc Hne Hex. simpl. rewrite Hc. simpl.
  destruct (count item =? to_uint (num_subdev c)) eqn:Ht.
  { apply (closed_test _ _ Hwf Hc) in Ht. contradiction. }
  destruct (expects_dec item mtd Hwf) as (b & Hb & Hiff).
  rewrite Hb. simpl. apply Hiff in Hex. subst b.
  rewrite (store_subdev_ok _ _ mtd Hwf Hc Hne). reflexivity.
Qed.

Lemma add_round_pass item c rest mtd :
  item_wf item -> concat item = Some c -> num_subdev c <> count item ->
  ~ expects item mtd ->
  mtd_virt_concat_add (Live item :: rest) mtd
  = '(b, rest') ← mtd_virt_concat_add rest mtd; Ok (b, Live item :: rest').
Proof.
  intros Hwf Hc Hne Hex. simpl. rewrite Hc. simpl.
  destruct (count item =? to_uint (num_subdev c)) eqn:Ht.
  { apply (closed_test _ _ Hwf Hc) in Ht. contradiction. }
  destruct (expects_dec item mtd Hwf) as (b & Hb & Hiff).
  rewrite Hb. simpl. destruct b; [|reflexivity].
  exfalso. apply Hex, Hiff. reflexivity.
Qed.

Lemma item_cases item mtd :
  item_wf item ->
  exists c, concat item = Some c /\
    (num_subdev c = count item
     \/ (num_subdev c <> count item /\ expects item mtd)
     \/ (num_subdev c <> count item /\ ~ expects item mtd)).
Proof.
  intros Hwf. pose proof Hwf as (c & Hc & _).
  exists c. split; [exact Hc|].
  destruct (Z.eq_dec (num_subdev c) (count item)) as [Heq|Hne]; [left; exact Heq|].
  right. destruct (expects_dec item mtd Hwf) as ([|] & _ & Hiff).
  - left. split; [exact Hne|]. apply Hiff. reflexivity.
  - right. split; [exact Hne|]. intros H. apply Hiff in H. discriminate.
Qed.

(** ** [mtd_virt_concat_add] on the whole registry *)

(** A refusal changes nothing. *)
Lemma add_false_unchanged l mtd : forall l',
  mtd_virt_concat_add l mtd = Ok (false, l') -> l' = l.
Proof.
  induction l as [|[item|] rest IH]; intros l' H; simpl in H.
  - injection H as <-. reflexivity.
  - destruct (concat item) as [c|]; simpl in H; [|discriminate].
    destruct (count item =? to_uint (num_subdev c)).
    { injection H as <-. reflexivity. }
    destruct (match_node _ _ _ _) as [hit|]; simpl in H; [|discriminate].
    destruct hit.
    + destruct (store_subdev c mtd); simpl in H; discriminate.
    + destruct (mtd_virt_concat_add rest mtd) as [[b0 rest0]|] eqn:E;
        simpl in H; [|discriminate].
      injection H as -> <-. f_equal. apply IH. reflexivity.
  - discriminate.
Qed.

(** The shape of the items is kept. *)
Lemma add_preserves_wf l mtd : forall b l',
  registry_wf l -> mtd_virt_concat_add l mtd = Ok (b, l') -> registry_wf l'.
Proof.
  induction l as [|[item|] rest IH]; intros b l' Hwf H.
  - simpl in H. injection H as <- <-. constructor.
  - apply Forall_cons in Hwf as [Hitem Hrest]. simpl in Hitem.
    destruct (item_cases item mtd Hitem) as (c & Hc & [Heq|[[Hne Hex]|[Hne Hex]]]).
    + rewrite (add_round_closed _ _ _ _ Hitem Hc Heq) in H.
      injection H as <- <-. constructor; assumption.
    + rewrite (add_round_match _ _ _ _ Hitem Hc Hne Hex) in H.
      injection H as <- <-. constructor; [|assumption].
      simpl. apply accept_wf; assumption.
    + rewrite (add_round_pass _ _ _ _ Hitem Hc Hne Hex) in H.
      destruct (mtd_virt_concat_add rest mtd) as [[b0 rest0]|] eqn:E;
        simpl in H; [|discriminate].
      injection H as <- <-. constructor; [assumption|].
      apply (IH b0 rest0); [assumption|reflexivity].
  - simpl in H. discriminate.
Qed.

(** A complete group is never written to. *)
Lemma add_complete_untouched l mtd : forall b l' i item,
  registry_wf l -> mtd_virt_concat_add l mtd = Ok (b, l') ->
  l !! i = Some (Live item) -> complete item ->
  l' !! i = Some (Live item).
Proof.
  induction l as [|[it|] rest IH]; intros b l' i item Hwf H Hi Hcomp.
  - rewrite lookup_nil in Hi. discriminate.
  - apply Forall_cons in Hwf as [Hitem Hrest]. simpl in Hitem.
    destruct (item_cases it mtd Hitem) as (c & Hc & [Heq|[[Hne Hex]|[Hne Hex]]]).
    + rewrite (add_round_closed _ _ _ _ Hitem Hc Heq) in H.
      injection H as <- <-. exact Hi.
    + rewrite (add_round_match _ _ _ _ Hitem Hc Hne Hex) in H.
      injection H as <- <-. destruct i as [|i]; [|exact Hi].
      simpl in Hi. injection Hi as ->.
      apply (complete_iff _ _ Hitem Hc) in Hcomp. contradiction.
    + rewrite (add_round_pass _ _ _ _ Hitem Hc Hne Hex) in H.
      destruct (mtd_virt_concat_add rest mtd) as [[b0 rest0]|] eqn:E;
        simpl in H; [|discriminate].
      injection H as <- <-. destruct i as [|i]; [exact Hi|].
      simpl in *. apply (IH b0 rest0 i item); auto.
  - simpl in H. discriminate.
Qed.

Lemma add_passes pre mtd : forall l,
  Forall (passed mtd) pre ->
  mtd_virt_concat_add (pre ++ l) mtd
  = '(b, l') ← mtd_virt_concat_add l mtd; Ok (b, pre ++ l').
Proof.
  induction pre as [|s pre IH]; intros l Hpre.
  - simpl. destruct (mtd_virt_concat_add l mtd) as [[b l']|]; reflexivity.
  - apply Forall_cons in Hpre as [(item & -> & Hwf & Hopen & Hex) Hpre].
    pose proof Hwf as (c & Hc & _).
    assert (num_subdev c <> count item) as Hne.
    { intros Heq. apply Hopen. apply (complete_iff _ _ Hwf Hc). exact Heq. }
    change ((Live item :: pre) ++ l) with (Live item :: (pre ++ l)).
    rewrite (add_round_pass _ _ _ _ Hwf Hc Hne Hex).
    rewrite (IH l Hpre).
    destruct (mtd_virt_concat_add l mtd) as [[b l']|]; reflexivity.
Qed.

(** The scan reaches an open group that expects the device: the device
    becomes its next member. *)
Lemma add_reaches_match pre item c post mtd :
  Forall (passed mtd) pre ->
  item_wf item -> concat item = Some c -> ~ complete item -> expects item mtd ->
  mtd_virt_concat_add (pre ++ Live item :: post) mtd
  = Ok (true, pre ++ Live (accept item c mtd) :: post).
Proof.
  intros Hpre Hwf Hc Hopen Hex.
  assert (num_subdev c <> count item) as Hne.
  { intros Heq. apply Hopen. apply (complete_iff _ _ Hwf Hc). exact Heq. }
  rewrite (add_passes _ _ _ Hpre).
  rewrite (add_round_match _ _ _ _ Hwf Hc Hne Hex). reflexivity.
Qed.

(** The scan reaches a complete group: it stops there with [false], and no
    group behind it is looked at. *)
Lemma add_reaches_complete pre item post mtd :
  Forall (passed mtd) pre ->
  item_wf item -> complete item ->
  mtd_virt_concat_add (pre ++ Live item :: post) mtd
  = Ok (false, pre ++ Live item :: post).
Proof.
  intros Hpre Hwf Hcomp. pose proof Hwf as (c & Hc & _).
  rewrite (add_passes _ _ _ Hpre).
  rewrite (add_round_closed _ _ _ _ Hwf Hc); [reflexivity|].
  apply (complete_iff _ _ Hwf Hc). exact Hcomp.
Qed.

(** The scan walks past every group: [false]. *)
Lemma add_reaches_end pre mtd :
  Forall (passed mtd) pre ->
  mtd_virt_concat_add pre mtd = Ok (false, pre).
Proof.
  intros Hpre. rewrite <- (app_nil_r pre) at 1.
  rewrite (add_passes _ _ _ Hpre). simpl. rewrite app_nil_r. reflexivity.
Qed.

(** ** Arrival order *)

(** Devices offered to a group the scan reaches become its members in the
    order of the calls. *)
Lemma offer_all_arrival devs : forall pre cnt nds c post,
  (forall d, d ∈ devs -> Forall (passed d) pre) ->
  item_wf {| count := cnt; nodes := nds; concat := Some c |} ->
  (forall d, d ∈ devs -> of_node (dev d) ∈ nds) ->
  num_subdev c + Z.of_nat (length devs) <= cnt ->
  exists c',
    offer_all (pre ++ Live {| count := cnt; nodes := nds; concat := Some c |} :: post) devs
    = Ok (replicate (length devs) true,
          pre ++ Live {| count := cnt; nodes := nds; concat := Some c' |} :: post)
    /\ item_wf {| count := cnt; nodes := nds; concat := Some c' |}
    /\ num_subdev c' = num_subdev c + Z.of_nat (length devs)
    /\ members c' = members c ++ map Some devs.
Proof.
  induction devs as [|d devs IH]; intros pre cnt nds c post Hpre Hwf Hex Hroom.
  - exists c. simpl. split; [reflexivity|]. split; [exact Hwf|].
    split; [lia|]. rewrite app_nil_r. reflexivity.
  - set (item := {| count := cnt; nodes := nds; concat := Some c |}) in *.
    assert (num_subdev c <> count item) as Hne by (simpl in *; lia).
    assert (~ complete item) as Hopen.
    { intros Hc. apply (complete_iff item c Hwf eq_refl) in Hc. contradiction. }
    assert (expects item d) as Hd by (apply Hex; apply list_elem_of_here).
    simpl offer_all.
    rewrite (add_reaches_match pre item c post d); auto;
      [|apply Hpre; apply list_elem_of_here].
    simpl.
    pose proof (accept_wf item c d Hwf eq_refl Hne) as Hwf'.
    pose proof (accept_members item c d Hwf eq_refl Hne _ eq_refl) as Hmem.
    unfold accept in *. simpl in Hwf', Hmem.
    destruct (IH pre cnt nds
                {| num_subdev := num_subdev c + 1;
                   subdev := <[Z.to_nat (num_subdev c) := Some d]> (subdev c) |} post)
      as (c' & Hrun & Hwf'' & Hnum & Hm).
    + intros d' Hd'. apply Hpre. apply list_elem_of_further. exact Hd'.
    + exact Hwf'.
    + intros d' Hd'. apply Hex. apply list_elem_of_further. exact Hd'.
    + simpl in *. lia.
    + exists c'. unfold accept. subst item. simpl in *.
      rewrite Hrun. simpl. split; [reflexivity|].
      split; [exact Hwf''|]. split; [simpl in *; lia|].
      rewrite Hm, Hmem. rewrite <- app_assoc. reflexivity.
Qed.

(** ** One round of the join loop on a complete group *)

Lemma complete_members item c :
  item_wf item -> concat item = Some c -> complete item ->
  members c = subdev c /\ num_subdev c = count item.
Proof.
  intros Hwf Hc Hcomp. apply (complete_iff _ _ Hwf Hc) in Hcomp.
  destruct Hwf as (c0 & Hc0 & _ & _ & _ & Hs & _).
  rewrite Hc in Hc0. injection Hc0 as <-.
  split; [|exact Hcomp]. unfold members. apply take_ge. lia.
Qed.

(** The name the driver builds for a group. *)
Lemma sprintf_concat_name n0 n1 sfx :
  sprintf "%s-%s%s-concat" [n0; n1; sfx]
  = (n0 ++ "-" ++ n1 ++ sfx ++ "-concat")%string.
Proof. reflexivity. Qed.

Lemma create_join_item_complete core item c d0 d1 heap heap' tr :
  concat item = Some c ->
  subdev c !! 0%nat = Some (Some d0) ->
  subdev c !! 1%nat = Some (Some d1) ->
  kalloc heap = (true, heap') ->
  let nm := sprintf "%s-%s%s-concat"
              [name d0; name d1;
               if num_subdev c >? MIN_DEV_PER_CONCAT then "-+" else ""]%string in
  let tr1 := tr ++ [EvMtdConcatCreate (subdev c) (num_subdev c) nm] in
  create_join_item core item heap tr =
    Ok match mtd_concat_create core (subdev c) (num_subdev c) nm with
       | None => Return (- ENXIO) tr1
       | Some built =>
           let mtd := {| name := name built; dev := dev d0 |} in
           if negb (mtd_device_register core mtd =? 0) then
             Return (mtd_device_register core mtd)
                    (tr1 ++ [EvMtdDeviceRegister mtd; EvMtdConcatDestroy (Built mtd)])
           else Next heap' (tr1 ++ [EvMtdDeviceRegister mtd])
       end.
Proof.
  intros Hc H0 H1 Hk. unfold create_join_item. rewrite Hc. simpl.
  rewrite (array_get_lookup _ _ _ H0), (array_get_lookup _ _ _ H1). simpl.
  rewrite Hk. simpl.
  destruct (mtd_concat_create core _ _ _) as [built|]; [|reflexivity].
  simpl. destruct (mtd_device_register core _ =? 0); simpl.
  - reflexivity.
  - rewrite <- app_assoc. reflexivity.
Qed.

(** ** The configuration scan *)

Lemma kalloc_never_fails heap :
  never_fails heap ->
  exists heap', kalloc heap = (true, heap') /\ never_fails heap'.
Proof.
  intros H. destruct heap as [|b heap]; simpl.
  - exists []. split; [reflexivity|constructor].
  - apply Forall_cons in H as [-> H]. exists heap. split; [reflexivity|exact H].
Qed.

Lemma pending_item_wf p :
  MIN_DEV_PER_CONCAT <= dt_phandle_count p <= INT_MAX -> item_wf (pending_item p).
Proof.
  intros H. eexists. split; [reflexivity|]. simpl.
  split; [exact H|]. unfold MIN_DEV_PER_CONCAT in *.
  split; [lia|]. split; [rewrite length_map, length_seq; reflexivity|].
  split; [apply length_replicate|].
  unfold members. simpl. constructor.
Qed.

Lemma create_item_cases parts cnt heap l :
  exists heap',
    mtd_virt_concat_create_item parts cnt heap l = (- ENOMEM, heap', l)
    \/ mtd_virt_concat_create_item parts cnt heap l
       = (0, heap',
          l ++ [Live {| count := cnt;
                        nodes := map (fun i => dt_parse_phandle parts (Z.of_nat i))
                                     (seq 0 (Z.to_nat cnt));
                        concat := Some {| num_subdev := 0;
                                          subdev := replicate (Z.to_nat cnt) None |} |}]).
Proof.
  unfold mtd_virt_concat_create_item.
  destruct (kalloc heap) as [[|] h1]; simpl; [|eexists; left; reflexivity].
  destruct (kalloc h1) as [[|] h2]; simpl; [|eexists; left; reflexivity].
  destruct (kalloc h2) as [[|] h3]; simpl; [|eexists; left; reflexivity].
  destruct (kalloc h3) as [[|] h4]; simpl; [|eexists; left; reflexivity].
  eexists; right; reflexivity.
Qed.

Lemma create_item_ok parts cnt heap l :
  never_fails heap ->
  exists heap',
    never_fails heap' /\
    mtd_virt_concat_create_item parts cnt heap l
    = (0, heap',
       l ++ [Live {| count := cnt;
                     nodes := map (fun i => dt_parse_phandle parts (Z.of_nat i))
                                  (seq 0 (Z.to_nat cnt));
                     concat := Some {| num_subdev := 0;
                                       subdev := replicate (Z.to_nat cnt) None |} |}]).
Proof.
  intros H0. unfold mtd_virt_concat_create_item.
  destruct (kalloc_never_fails _ H0) as (h1 & -> & H1). simpl.
  destruct (kalloc_never_fails _ H1) as (h2 & -> & H2). simpl.
  destruct (kalloc_never_fails _ H2) as (h3 & -> & H3). simpl.
  destruct (kalloc_never_fails _ H3) as (h4 & -> & H4). simpl.
  exists h4. split; [exact H4|reflexivity].
Qed.

Lemma qualifying_count p :
  is_int (dt_phandle_count p) ->
  (dt_phandle_count p <? MIN_DEV_PER_CONCAT) = false ->
  MIN_DEV_PER_CONCAT <= dt_phandle_count p <= INT_MAX
  /\ to_uint (dt_phandle_count p) = dt_phandle_count p.
Proof.
  intros [_ Hmax] Hlt. apply Z.ltb_ge in Hlt.
  split; [lia|]. apply to_uint_small. unfold MIN_DEV_PER_CONCAT in *. lia.
Qed.

(** With an allocator that never refuses, the scan appends one pending
    item per qualifying node and leaves [count] at the reference count of
    the last available node. *)
Lemma scan_dt_ok dt : forall cnt heap l,
  Forall (fun p => is_int (dt_phandle_count p)) dt ->
  never_fails heap ->
  exists heap',
    never_fails heap' /\
    scan_dt dt cnt heap l
    = ScanDone (last_count dt cnt) heap'
               (l ++ map (fun p => Live (pending_item p)) (List.filter qualifying dt)).
Proof.
  induction dt as [|p dt IH]; intros cnt heap l Hint Hheap; simpl.
  - exists heap. rewrite app_nil_r. split; [exact Hheap|reflexivity].
  - apply Forall_cons in Hint as [Hp Hint]. unfold qualifying at 1.
    destruct (dt_available p); simpl; [|apply IH; assumption].
    destruct (dt_phandle_count p <? MIN_DEV_PER_CONCAT) eqn:Hlt.
    + replace (MIN_DEV_PER_CONCAT <=? dt_phandle_count p) with false
        by (symmetry; apply Z.leb_gt; apply Z.ltb_lt; exact Hlt).
      apply IH; assumption.
    + destruct (qualifying_count p Hp Hlt) as [Hrange Hu].
      replace (MIN_DEV_PER_CONCAT <=? dt_phandle_count p) with true
        by (symmetry; apply Z.leb_le; lia).
      rewrite Hu.
      destruct (create_item_ok p (dt_phandle_count p) heap l Hheap)
        as (h1 & Hh1 & ->). simpl.
      destruct (IH (dt_phandle_count p) h1
                  (l ++ [Live (pending_item p)]) Hint Hh1) as (h2 & Hh2 & Hrun).
      exists h2. split; [exact Hh2|].
      unfold pending_item at 1 in Hrun. rewrite Hrun.
      rewrite <- app_assoc. reflexivity.
Qed.

(** Whatever the allocator does, the scan keeps the registry well-formed,
    and a failed scan reports [-ENOMEM]. *)
Lemma scan_dt_wf dt : forall cnt heap l,
  Forall (fun p => is_int (dt_phandle_count p)) dt ->
  registry_wf l ->
  match scan_dt dt cnt heap l with
  | ScanDone _ _ l' => registry_wf l'
  | ScanFailed ret _ _ l' => registry_wf l' /\ ret = - ENOMEM
  end.
Proof.
  induction dt as [|p dt IH]; intros cnt heap l Hint Hwf; simpl.
  - exact Hwf.
  - apply Forall_cons in Hint as [Hp Hint].
    destruct (dt_available p); simpl; [|apply IH; assumption].
    destruct (dt_phandle_count p <? MIN_DEV_PER_CONCAT) eqn:Hlt;
      [apply IH; assumption|].
    destruct (qualifying_count p Hp Hlt) as [Hrange Hu]. rewrite Hu.
    destruct (create_item_cases p (dt_phandle_count p) heap l) as (h1 & [-> | ->]).
    + simpl. split; [exact Hwf|reflexivity].
    + simpl. apply IH; [exact Hint|].
      apply Forall_app. split; [exact Hwf|].
      constructor; [|constructor]. apply (pending_item_wf p Hrange).
Qed.

(** [mtd_virt_concat_destroy_items] leaves one dangling link per item. *)
Lemma destroy_items_links l : forall evs l',
  mtd_virt_concat_destroy_items l = Ok (evs, l') ->
  l' = map (fun _ => Freed) l.
Proof.
  induction l as [|[item|] rest IH]; intros evs l' H; simpl in H.
  - injection H as <- <-. reflexivity.
  - destruct (of_node_put_loop _ _ _) as [e1|]; simpl in H; [|discriminate].
    destruct (mtd_virt_concat_destroy_items rest) as [[more rest']|];
      simpl in H; [|discriminate].
    injection H as <- <-. simpl. f_equal. apply (IH more). reflexivity.
  - discriminate.
Qed.

Lemma freed_links_wf (l : list slot) : registry_wf (map (fun _ => Freed) l).
Proof. induction l; simpl; constructor; simpl; auto. Qed.

Lemma node_create_fail_wf ret l tr r st' :
  node_create_fail ret l tr = Ok (r, st') -> registry_wf (concat_node_list st').
Proof.
  unfold node_create_fail. intros H.
  destruct (mtd_virt_concat_destroy_items l) as [[evs l']|] eqn:E;
    simpl in H; [|discriminate].
  injection H as <- <-. simpl.
  rewrite (destroy_items_links _ _ _ E). apply freed_links_wf.
Qed.

Lemma node_create_wf dt count0 heap st ret st' :
  Forall (fun p => is_int (dt_phandle_count p)) dt ->
  registry_wf (concat_node_list st) ->
  mtd_virt_concat_node_create dt count0 heap st = Ok (ret, st') ->
  registry_wf (concat_node_list st').
Proof.
  intros Hint Hwf H. unfold mtd_virt_concat_node_create in H.
  destruct (concat_node_list st) as [|s l0] eqn:El.
  - pose proof (scan_dt_wf dt count0 heap [] Hint Hwf) as Hscan.
    destruct (scan_dt dt count0 heap []) as [cnt h l|r parts h l].
    + destruct (kalloc h) as [[|] h1]; simpl in H;
        [|apply (node_create_fail_wf _ _ _ _ _ H)].
      destruct (kalloc h1) as [[|] h2]; simpl in H;
        [|apply (node_create_fail_wf _ _ _ _ _ H)].
      injection H as <- <-. exact Hscan.
    + apply (node_create_fail_wf _ _ _ _ _ H).
  - injection H as <- <-. rewrite El. exact Hwf.
Qed.

(** ** The invariant of the registry *)

Lemma step_preserves_wf st st' :
  registry_wf (concat_node_list st) -> step st st' ->
  registry_wf (concat_node_list st').
Proof.
  intros Hwf Hstep. inversion Hstep as
    [dt count0 heap s ret s' Hint Hrun
    |mtd s b s' Hrun
    |core heap s ret s' Hrun
    |s s' Hrun]; subst.
  - exact (node_create_wf _ _ _ _ _ _ Hint Hwf Hrun).
  - unfold offer in Hrun.
    destruct (mtd_virt_concat_add (concat_node_list st) mtd) as [[b0 l']|] eqn:E;
      simpl in Hrun; [|discriminate].
    injection Hrun as <- <-. simpl. exact (add_preserves_wf _ _ _ _ Hwf E).
  - unfold mtd_virt_concat_create_join in Hrun.
    destruct (create_join_from core _ heap _) as [[r tr]|];
      simpl in Hrun; [|discriminate].
    injection Hrun as <- <-. simpl. exact Hwf.
  - unfold mtd_virt_concat_exit in Hrun.
    destruct (mtd_virt_concat_destroy_joins _) as [joins|];
      simpl in Hrun; [|discriminate].
    destruct (mtd_virt_concat_destroy_items _) as [[evs l']|] eqn:E;
      simpl in Hrun; [|discriminate].
    injection Hrun as <-. simpl.
    rewrite (destroy_items_links _ _ _ E). apply freed_links_wf.
Qed.

Lemma reachable_wf st : reachable st -> registry_wf (concat_node_list st).
Proof.
  induction 1 as [|st st' _ IH Hstep].
  - constructor.
  - exact (step_preserves_wf _ _ IH Hstep).
Qed.

Lemma wf_members_bounded l : registry_wf l -> members_bounded l.
Proof.
  intros Hwf item c Hin Hc.
  pose proof (proj1 (Forall_forall _ _) Hwf _ Hin) as Hitem. simpl in Hitem.
  pose proof (members_length _ _ Hitem Hc) as Hm.
  destruct Hitem as (c0 & Hc0 & Hcnt & Hn & Hnd & _).
  rewrite Hc in Hc0. injection Hc0 as <-.
  unfold expected. rewrite Hm, Hnd. split; [lia|exact Hn].
Qed.

(** ** Reaching the example states *)

Lemma dt_counts_int (dt : list dt_node) :
  forallb (fun p => (INT_MIN <=? dt_phandle_count p) && (dt_phandle_count p <=? INT_MAX)) dt
  = true ->
  Forall (fun p => is_int (dt_phandle_count p)) dt.
Proof.
  induction dt as [|p dt IH]; simpl; intros H; constructor.
  - apply andb_prop in H as [H _]. apply andb_prop in H as [H1 H2].
    split; [apply Z.leb_le, H1|apply Z.leb_le, H2].
  - apply IH. apply andb_prop in H as [_ H]. exact H.
Qed.

Lemma discovered_reachable dt :
  forallb (fun p => (INT_MIN <=? dt_phandle_count p) && (dt_phandle_count p <=? INT_MAX)) dt
  = true ->
  reachable (discovered dt).
Proof.
  intros Hint. unfold discovered.
  destruct (mtd_virt_concat_node_create dt 0 [] init_state) as [[ret st]|] eqn:E; simpl.
  - apply (reachable_step init_state); [constructor|].
    apply (step_node_create dt 0 [] init_state ret st); [|exact E].
    apply dt_counts_int. exact Hint.
  - constructor.
Qed.

Lemma offered_reachable devs : forall st, reachable st -> reachable (offered devs st).
Proof.
  induction devs as [|d devs IH]; intros st Hst; simpl; [exact Hst|].
  apply IH. destruct (offer d st) as [[b st']|] eqn:E; simpl; [|exact Hst].
  apply (reachable_step st); [exact Hst|]. exact (step_add d st b st' E).
Qed.

(** ** Properties of the specification *)

(** A round of the join loop on a complete group: the call to the engine
    and the name it is given. *)
Lemma create_join_item_on_complete core item c heap heap' tr :
  item_wf item ->
  concat item = Some c ->
  complete item ->
  kalloc heap = (true, heap') ->
  exists d0 d1 nm r tail,
    members c !! 0%nat = Some (Some d0)
    /\ members c !! 1%nat = Some (Some d1)
    /\ create_join_item core item heap tr = Ok r
    /\ round_trace r = tr ++ EvMtdConcatCreate (members c) (num_subdev c) nm :: tail
    /\ ((2 < length (members c))%nat ->
        nm = (name d0 ++ "-" ++ name d1 ++ "-+-concat")%string)
    /\ (length (members c) = 2%nat ->
        nm = (name d0 ++ "-" ++ name d1 ++ "-concat")%string).
Proof.
  intros Hwf Hc Hcomp Hk.
  destruct (complete_members _ _ Hwf Hc Hcomp) as [Hmem Hnum].
  pose proof (members_length _ _ Hwf Hc) as Hlen.
  pose proof Hwf as (c0 & Hc0 & Hcnt & Hn & _ & Hs & Hsome).
  rewrite Hc in Hc0. injection Hc0 as <-.
  unfold MIN_DEV_PER_CONCAT in Hcnt.
  destruct (lookup_lt_is_Some_2 (members c) 0%nat) as [o0 H0]; [lia|].
  destruct (lookup_lt_is_Some_2 (members c) 1%nat) as [o1 H1]; [lia|].
  pose proof (proj1 (Forall_lookup _ _) Hsome _ _ H0) as [d0 ->].
  pose proof (proj1 (Forall_lookup _ _) Hsome _ _ H1) as [d1 ->].
  exists d0, d1. rewrite Hmem in H0, H1.
  pose proof (create_join_item_complete core item c d0 d1 heap heap' tr Hc H0 H1 Hk)
    as Hrun.
  cbv zeta in Hrun. rewrite sprintf_concat_name in Hrun.
  set (nm := (name d0 ++ "-" ++ name d1 ++
              (if num_subdev c >? MIN_DEV_PER_CONCAT then "-+" else "") ++
              "-concat")%string) in *.
  match type of Hrun with _ = Ok ?R =>
    assert (exists tail,
      round_trace R = tr ++ EvMtdConcatCreate (subdev c) (num_subdev c) nm :: tail)
      as [tail Htail]
  end.
  { destruct (mtd_concat_create core _ _ _) as [built|]; simpl.
    - destruct (negb _); simpl; rewrite <- app_assoc; eexists; reflexivity.
    - exists []. reflexivity. }
  exists nm. eexists. exists tail.
  split; [rewrite Hmem; exact H0|]. split; [rewrite Hmem; exact H1|].
  split; [exact Hrun|]. rewrite Hmem.
  split; [exact Htail|]. subst nm. split.
  - intros Hgt. unfold MIN_DEV_PER_CONCAT.
    replace (num_subdev c >? 2) with true; [reflexivity|].
    symmetry. apply Z.gtb_lt. rewrite <- Hmem in Hgt. lia.
  - intros Heq. unfold MIN_DEV_PER_CONCAT.
    replace (num_subdev c >? 2) with false; [reflexivity|].
    symmetry. rewrite Z.gtb_ltb. apply Z.ltb_ge. rewrite <- Hmem in Heq. lia.
Qed.

(** C9.  When the join loop processes a complete group (and the buffer for
    the name is allocated), the name handed to the concatenation engine is
    the first member's name, a dash, the second member's name, then
    ["-+-concat"] if the group has more than two members and ["-concat"] if
    it has exactly two. *)
Theorem join_name_of_complete_group core item c heap heap' tr :
  item_wf item ->
  concat item = Some c ->
  complete item ->
  kalloc heap = (true, heap') ->
  exists d0 d1 nm r tail,
    members c !! 0%nat = Some (Some d0)
    /\ members c !! 1%nat = Some (Some d1)
    /\ create_join_item core item heap tr = Ok r
    /\ round_trace r = tr ++ EvMtdConcatCreate (members c) (num_subdev c) nm :: tail
    /\ ((2 < length (members c))%nat ->
        nm = (name d0 ++ "-" ++ name d1 ++ "-+-concat")%string)
    /\ (length (members c) = 2%nat ->
        nm = (name d0 ++ "-" ++ name d1 ++ "-concat")%string).
Proof.
  intros Hwf Hc Hcomp Hk.
  exact (create_join_item_on_complete core item c heap heap' tr Hwf Hc Hcomp Hk).
Qed.

Lemma item_CAB_arises :
  concat_node_list (offered [dev_C; dev_A; dev_B] (discovered dt_ABC)) = [Live item_CAB].
Proof. reflexivity. Qed.

Lemma item_CAB_wf : item_wf item_CAB.
Proof.
  exists conc_CAB. split; [reflexivity|]. simpl.
  unfold MIN_DEV_PER_CONCAT, INT_MAX.
  split; [lia|]. split; [lia|]. split; [reflexivity|]. split; [reflexivity|].
  unfold members. simpl. repeat constructor; eexists; reflexivity.
Qed.

Lemma item_CAB_complete : complete item_CAB.
Proof. exists conc_CAB. split; reflexivity. Qed.

Lemma join_name_of_complete_group_witness :
  item_wf item_CAB
  /\ concat item_CAB = Some conc_CAB
  /\ complete item_CAB
  /\ kalloc [] = (true, [])
  /\ exists d0 d1 nm r tail,
       members conc_CAB !! 0%nat = Some (Some d0)
       /\ members conc_CAB !! 1%nat = Some (Some d1)
       /\ create_join_item core_ok item_CAB [] [] = Ok r
       /\ round_trace r
          = [] ++ EvMtdConcatCreate (members conc_CAB) (num_subdev conc_CAB) nm :: tail
       /\ ((2 < length (members conc_CAB))%nat ->
           nm = (name d0 ++ "-" ++ name d1 ++ "-+-concat")%string)
       /\ (length (members conc_CAB) = 2%nat ->
           nm = (name d0 ++ "-" ++ name d1 ++ "-concat")%string).
Proof.
  split; [exact item_CAB_wf|]. split; [reflexivity|].
  split; [exact item_CAB_complete|]. split; [reflexivity|].
  exact (join_name_of_complete_group core_ok item_CAB conc_CAB [] [] []
           item_CAB_wf eq_refl item_CAB_complete eq_refl).
Defined.

(** C2, as the driver has it.  On a first call (empty registry) in which
    no allocation fails, [mtd_virt_concat_node_create] returns and leaves
    in the registry exactly one group per qualifying node, in scan order,
    each expecting as many identifiers as its node declares.  (Nothing is
    said here of the value returned.) *)
Theorem node_create_registry dt count0 heap st :
  concat_node_list st = [] ->
  Forall (fun p => is_int (dt_phandle_count p)) dt ->
  never_fails heap ->
  exists ret st',
    mtd_virt_concat_node_create dt count0 heap st = Ok (ret, st')
    /\ concat_node_list st'
       = map (fun p => Live (pending_item p)) (List.filter qualifying dt)
    /\ length (concat_node_list st') = length (List.filter qualifying dt)
    /\ Forall2 (fun p s => exists item,
                  s = Live item
                  /\ count item = dt_phandle_count p
                  /\ length (expected item) = Z.to_nat (dt_phandle_count p))
               (List.filter qualifying dt) (concat_node_list st').
Proof.
  intros Hempty Hint Hheap. unfold mtd_virt_concat_node_create. rewrite Hempty.
  destruct (scan_dt_ok dt count0 heap [] Hint Hheap) as (h1 & Hh1 & ->).
  destruct (kalloc_never_fails _ Hh1) as (h2 & -> & Hh2). simpl.
  destruct (kalloc_never_fails _ Hh2) as (h3 & -> & Hh3). simpl.
  eexists. eexists. split; [reflexivity|]. simpl.
  split; [reflexivity|]. split; [apply length_map|].
  induction (List.filter qualifying dt) as [|p l IH]; simpl; constructor.
  - exists (pending_item p). split; [reflexivity|]. split; [reflexivity|].
    unfold expected. simpl. rewrite length_map, length_seq. reflexivity.
  - exact IH.
Qed.

Lemma node_create_registry_witness :
  concat_node_list init_state = []
  /\ Forall (fun p => is_int (dt_phandle_count p)) dt_AB_CD
  /\ never_fails []
  /\ exists ret st',
       mtd_virt_concat_node_create dt_AB_CD 0 [] init_state = Ok (ret, st')
       /\ concat_node_list st'
          = map (fun p => Live (pending_item p)) (List.filter qualifying dt_AB_CD)
       /\ length (concat_node_list st') = length (List.filter qualifying dt_AB_CD)
       /\ Forall2 (fun p s => exists item,
                     s = Live item
                     /\ count item = dt_phandle_count p
                     /\ length (expected item) = Z.to_nat (dt_phandle_count p))
                  (List.filter qualifying dt_AB_CD) (concat_node_list st').
Proof.
  assert (Forall (fun p => is_int (dt_phandle_count p)) dt_AB_CD) as Hint.
  { apply dt_counts_int. reflexivity. }
  assert (never_fails []) as Hheap by constructor.
  split; [reflexivity|]. split; [exact Hint|]. split; [exact Hheap|].
  exact (node_create_registry dt_AB_CD 0 [] init_state eq_refl Hint Hheap).
Defined.

(** C2 as stated fails: one qualifying group of three devices makes the
    first call return 3, not the number of groups, 1. *)
Lemma node_create_return_not_group_count :
  Z.of_nat (length (List.filter qualifying dt_ABC)) = 1
  /\ (exists st', mtd_virt_concat_node_create dt_ABC 0 [] init_state = Ok (3, st'))
  /\ ~ (exists st',
          mtd_virt_concat_node_create dt_ABC 0 [] init_state
          = Ok (Z.of_nat (length (List.filter qualifying dt_ABC)), st')).
Proof.
  split; [reflexivity|]. split.
  - eexists. reflexivity.
  - intros [st' H]. vm_compute in H. discriminate H.
Qed.

(** ** Where the driver departs from the specification *)

(** C1.  With groups [A; B] and [C; D] discovered and A, B arrived, the
    second group is open and expects C; offering C is nevertheless
    refused: the scan returns at the complete first group. *)
Theorem add_refuses_behind_complete_group :
  let st := offered [dev_A; dev_B] (discovered dt_AB_CD) in
  reachable st
  /\ concat_node_list st = [Live group_AB_full; Live group_CD_empty]
  /\ ~ complete group_CD_empty
  /\ expects group_CD_empty dev_C
  /\ offer dev_C st = Ok (false, st).
Proof.
  intros st. split; [|split; [|split; [|split]]].
  - apply offered_reachable, discovered_reachable. reflexivity.
  - reflexivity.
  - not_complete.
  - apply list_elem_of_here.
  - reflexivity.
Qed.

(** C3.  With the group [A; B] discovered and only A arrived, the join
    loop does not skip the group: it reads the name of the second member
    through the null pointer in [subdev[1]]. *)
Theorem create_join_faults_on_incomplete_group core heap :
  let st := offered [dev_A] (discovered dt_AB) in
  reachable st
  /\ concat_node_list st = [Live group_AB_half]
  /\ ~ complete group_AB_half
  /\ mtd_virt_concat_create_join core heap st = Fault NullDeref.
Proof.
  intros st. split; [|split; [|split]].
  - apply offered_reachable, discovered_reachable. reflexivity.
  - reflexivity.
  - not_complete.
  - reflexivity.
Qed.

(** C4.  With the group [A; B] complete and an engine that refuses to
    build, the join returns [-ENXIO] after the call to the engine and
    releases no member; when instead the allocation of the name fails, it
    does release A and B before returning [-ENOMEM]. *)
Theorem build_failure_releases_no_member :
  let st := offered [dev_A; dev_B] (discovered dt_AB) in
  reachable st
  /\ complete group_AB_full
  /\ mtd_virt_concat_create_join core_build_fails [] st
     = Ok (- ENXIO,
           {| concat_node_list := [Live group_AB_full];
              trace := [EvMtdConcatCreate [Some dev_A; Some dev_B] 2 "A-B-concat"] |})
  /\ mtd_virt_concat_create_join core_build_fails [false] st
     = Ok (- ENOMEM,
           {| concat_node_list := [Live group_AB_full];
              trace := [EvPutMtdDevice (Some dev_A); EvPutMtdDevice (Some dev_B)] |}).
Proof.
  intros st. split; [|split; [|split]].
  - apply offered_reachable, discovered_reachable. reflexivity.
  - eexists. split; reflexivity.
  - reflexivity.
  - reflexivity.
Qed.

(** C5.  With groups [A; B] and [C; D] configured and the fifth allocation
    (the item of the second group) failing, the call returns [-ENOMEM] but
    the first group's item, freed, is still linked: the registry is not
    empty, a second scan does nothing and returns 0, and an offer reads
    the freed item. *)
Theorem failed_node_create_leaves_dangling_item :
  let st := {| concat_node_list := [Freed];
               trace := [EvOfNodePut (Some 11%positive);
                         EvOfNodePut (Some node_A); EvOfNodePut (Some node_B)] |} in
  mtd_virt_concat_node_create dt_AB_CD 0 [true; true; true; true; false] init_state
  = Ok (- ENOMEM, st)
  /\ concat_node_list st <> []
  /\ mtd_virt_concat_node_create dt_AB_CD 0 [] st = Ok (0, st)
  /\ offer dev_A st = Fault UseAfterFree.
Proof.
  intros st. split; [|split; [|split]].
  - reflexivity.
  - discriminate.
  - reflexivity.
  - reflexivity.
Qed.

(** C6.  With groups [D; E] and [A; B; C] discovered and D, E arrived,
    the devices C, A, B are offered and all refused at the complete first
    group: the second group stays empty, and the join loop then reads
    through the null pointer in its [subdev[0]]. *)
Theorem group_behind_complete_group_never_fills :
  let st := offered [dev_D; dev_E] (discovered dt_DE_ABC) in
  reachable st
  /\ concat_node_list st = [Live group_DE_full; Live group_ABC_empty]
  /\ offer_all (concat_node_list st) [dev_C; dev_A; dev_B]
     = Ok ([false; false; false], [Live group_DE_full; Live group_ABC_empty])
  /\ ~ complete group_ABC_empty
  /\ mtd_virt_concat_create_join core_ok [] (offered [dev_C; dev_A; dev_B] st)
     = Fault NullDeref.
Proof.
  intros st. split; [|split; [|split; [|split]]].
  - apply offered_reachable, discovered_reachable. reflexivity.
  - reflexivity.
  - reflexivity.
  - not_complete.
  - reflexivity.
Qed.

(** C8.  With the group [A; B] discovered, only A arrived and nothing ever
    built or published, teardown still unregisters and destroys the
    group's container and releases A: the test [item->concat] holds for
    every item of the registry. *)
Theorem exit_unregisters_unjoined_group :
  let st := offered [dev_A] (discovered dt_AB) in
  reachable st
  /\ trace st = []
  /\ mtd_virt_concat_exit st
     = Ok {| concat_node_list := [Freed];
             trace := [EvMtdDeviceUnregister (Embedded 0);
                       EvMtdConcatDestroy (Embedded 0);
                       EvPutMtdDevice (Some dev_A);
                       EvOfNodePut (Some node_A);
                       EvOfNodePut (Some node_B)] |}.
Proof.
  intros st. split; [|split].
  - apply offered_reachable, discovered_reachable. reflexivity.
  - reflexivity.
  - reflexivity.
Qed.

(** With groups [A; B] and [C; unresolved] discovered and A, B arrived,
    the second group is open and holds a null identifier, yet a device
    without a configuration node is refused: the scan returns at the
    complete first group (the early return of C1). *)
Lemma anonymous_device_refused_behind_complete_group :
  let st := offered [dev_A; dev_B] (discovered dt_AB_Cnull) in
  reachable st
  /\ concat_node_list st = [Live group_AB_full; Live group_Cnull_empty]
  /\ ~ complete group_Cnull_empty
  /\ None ∈ expected group_Cnull_empty
  /\ of_node (dev dev_anon) = None
  /\ offer dev_anon st = Ok (false, st).
Proof.
  intros st. split; [|split; [|split; [|split; [|split]]]].
  - apply offered_reachable, discovered_reachable. reflexivity.
  - reflexivity.
  - not_complete.
  - apply list_elem_of_further, list_elem_of_here.
  - reflexivity.
  - reflexivity.
Qed.

(** ** What the driver does guarantee *)

Lemma passed_live mtd pre : Forall (passed mtd) pre -> registry_live pre.
Proof.
  intros H. eapply Forall_impl; [exact H|].
  intros s (item & -> & Hwf & _). exists item. auto.
Qed.

(** On a live registry an offer always returns, and it returns [true]
    exactly when the first group that is complete or expects the device is
    an open group that expects it. *)
Lemma add_true_iff l mtd :
  registry_live l ->
  exists b l',
    mtd_virt_concat_add l mtd = Ok (b, l')
    /\ (b = true <->
        exists pre item post,
          l = pre ++ Live item :: post
          /\ Forall (passed mtd) pre
          /\ ~ complete item /\ expects item mtd).
Proof.
  induction l as [|s rest IH]; intros Hlive.
  - exists false, []. split; [reflexivity|]. split; [discriminate|].
    intros (pre & item & post & Heq & _). destruct pre; discriminate Heq.
  - apply Forall_cons in Hlive as [(item & -> & Hitem) Hrest].
    destruct (IH Hrest) as (b & rest' & Hrun & Hiff).
    destruct (item_cases item mtd Hitem) as (c & Hc & [Heq|[[Hne Hex]|[Hne Hex]]]).
    + exists false, (Live item :: rest).
      split; [apply (add_round_closed _ _ _ _ Hitem Hc Heq)|].
      split; [discriminate|].
      intros (pre & it & post & Hl & Hpre & Hopen & Hexp).
      destruct pre as [|s pre]; simpl in Hl; injection Hl as Hs Hl.
      * subst it. exfalso. apply Hopen. apply (complete_iff _ _ Hitem Hc). exact Heq.
      * subst s. apply Forall_cons in Hpre as [(it0 & Hit0 & _ & Hopen0 & _) _].
        injection Hit0 as <-. exfalso. apply Hopen0.
        apply (complete_iff _ _ Hitem Hc). exact Heq.
    + exists true, (Live (accept item c mtd) :: rest).
      split; [apply (add_round_match _ _ _ _ Hitem Hc Hne Hex)|].
      split; [|reflexivity]. intros _.
      exists [], item, rest. split; [reflexivity|]. split; [constructor|].
      split; [|exact Hex]. intros Hcomp.
      apply (complete_iff _ _ Hitem Hc) in Hcomp. contradiction.
    + exists b, (Live item :: rest').
      split.
      { rewrite (add_round_pass _ _ _ _ Hitem Hc Hne Hex), Hrun. reflexivity. }
      assert (passed mtd (Live item)) as Hpass.
      { exists item. split; [reflexivity|]. split; [exact Hitem|].
        split; [|exact Hex]. intros Hcomp.
        apply (complete_iff _ _ Hitem Hc) in Hcomp. contradiction. }
      rewrite Hiff. split.
      * intros (pre & it & post & Hl & Hpre & Hopen & Hexp).
        exists (Live item :: pre), it, post. rewrite Hl.
        split; [reflexivity|]. split; [constructor; assumption|]. auto.
      * intros (pre & it & post & Hl & Hpre & Hopen & Hexp).
        destruct pre as [|s pre]; simpl in Hl; injection Hl as Hs Hl.
        -- subst it. contradiction.
        -- exists pre, it, post. apply Forall_cons in Hpre as [_ Hpre]. auto.
Qed.

(** A group the scan reaches, empty so far, offered devices whose
    identifiers are a rearrangement of the expected ones: every offer is
    accepted, the group ends complete, and the array the join loop hands to
    the engine lists the devices in the order of the offers. *)
Lemma arrival_order_when_reached pre cnt nds post devs core heap heap' tr :
  let item := {| count := cnt; nodes := nds;
                 concat := Some {| num_subdev := 0;
                                   subdev := replicate (Z.to_nat cnt) None |} |} in
  (forall d, d ∈ devs -> Forall (passed d) pre) ->
  item_wf item ->
  map (fun d => of_node (dev d)) devs ≡ₚ nds ->
  kalloc heap = (true, heap') ->
  exists c' nm r tail,
    offer_all (pre ++ Live item :: post) devs
    = Ok (replicate (length devs) true,
          pre ++ Live {| count := cnt; nodes := nds; concat := Some c' |} :: post)
    /\ complete {| count := cnt; nodes := nds; concat := Some c' |}
    /\ members c' = map Some devs
    /\ create_join_item core {| count := cnt; nodes := nds; concat := Some c' |} heap tr
       = Ok r
    /\ round_trace r
       = tr ++ EvMtdConcatCreate (map Some devs) (Z.of_nat (length devs)) nm :: tail.
Proof.
  intros item Hpre Hwf Hperm Hk.
  assert (length devs = length nds) as Hlen.
  { rewrite <- (length_map (fun d => of_node (dev d)) devs).
    apply Permutation_length. exact Hperm. }
  pose proof Hwf as (c0 & Hc0 & Hcnt & _ & Hnd & _). simpl in Hnd, Hcnt.
  destruct (offer_all_arrival devs pre cnt nds _ post Hpre Hwf)
    as (c' & Hrun & Hwf' & Hnum & Hmem).
  - intros d Hd. rewrite <- Hperm. apply list_elem_of_In.
    apply (in_map (fun d => of_node (dev d))). apply list_elem_of_In. exact Hd.
  - simpl. unfold MIN_DEV_PER_CONCAT in *. lia.
  - simpl in Hnum.
    change (members {| num_subdev := 0; subdev := replicate (Z.to_nat cnt) None |})
      with (@nil (option mtd_info)) in Hmem.
    simpl in Hmem.
    assert (complete {| count := cnt; nodes := nds; concat := Some c' |}) as Hcomp.
    { apply (complete_iff _ c' Hwf' eq_refl). simpl.
      unfold MIN_DEV_PER_CONCAT in *. lia. }
    destruct (create_join_item_on_complete core _ c' heap heap' tr Hwf' eq_refl Hcomp Hk)
      as (d0 & d1 & nm & r & tail & _ & _ & Hjoin & Htr & _).
    exists c', nm, r, tail.
    split; [exact Hrun|]. split; [exact Hcomp|]. split; [exact Hmem|].
    split; [exact Hjoin|]. rewrite Htr, Hmem, Hnum. reflexivity.
Qed.

(** The scan stores what [of_parse_phandle] returns, resolved or not. *)
Lemma pending_item_nodes p i :
  (i < Z.to_nat (dt_phandle_count p))%nat ->
  expected (pending_item p) !! i = Some (dt_parse_phandle p (Z.of_nat i)).
Proof.
  intros Hi. unfold expected, pending_item. simpl.
  rewrite list_lookup_fmap.
  rewrite lookup_seq_lt by exact Hi. reflexivity.
Qed.

(** A group the scan reaches, open, holding a null identifier: a device
    without a configuration node becomes its next member. *)
Lemma null_entry_accepts_anonymous_device pre item c post mtd :
  Forall (passed mtd) pre ->
  item_wf item -> concat item = Some c -> ~ complete item ->
  None ∈ expected item ->
  of_node (dev mtd) = None ->
  mtd_virt_concat_add (pre ++ Live item :: post) mtd
  = Ok (true, pre ++ Live (accept item c mtd) :: post)
  /\ (forall c', concat (accept item c mtd) = Some c' ->
        members c' = members c ++ [Some mtd]).
Proof.
  intros Hpre Hwf Hc Hopen Hnull Hanon. split.
  - apply add_reaches_match; auto. unfold expects. rewrite Hanon. exact Hnull.
  - apply accept_members; auto.
    intros Heq. apply Hopen. apply (complete_iff _ _ Hwf Hc). exact Heq.
Qed.

(** The scenario of the specification: the group expects [A; B; C], the
    devices arrive in the order C, A, B, and the engine is handed
    [C; A; B]. *)
Example scenario_CAB :
  mtd_virt_concat_create_join core_ok []
    (offered [dev_C; dev_A; dev_B] (discovered dt_ABC))
  = Ok (0, {| concat_node_list := [Live item_CAB];
              trace := [EvMtdConcatCreate [Some dev_C; Some dev_A; Some dev_B] 3
                          "C-A-+-concat";
                        EvMtdDeviceRegister
                          {| name := "C-A-+-concat"; dev := dev dev_C |}] |}).
Proof. reflexivity. Qed.

(** A registry whose only group holds an unresolved reference takes a
    device without a configuration node. *)
Example scenario_anonymous :
  offer dev_anon (discovered [concat_group 11%positive true [Some node_C; None]])
  = Ok (true,
        {| concat_node_list :=
             [Live {| count := 2; nodes := [Some node_C; None];
                      concat := Some {| num_subdev := 1;
                                        subdev := [Some dev_anon; None] |} |}];
           trace := [] |}).
Proof. reflexivity. Qed.

(** ** Teardown on a live registry *)

Lemma put_loop_spec arr todo : forall i,
  (i + todo <= length arr)%nat ->
  put_loop arr i todo = Ok (map EvPutMtdDevice (take todo (drop i arr))).
Proof.
  induction todo as [|todo IH]; intros i Hi; simpl.
  - reflexivity.
  - destruct (lookup_lt_is_Some_2 arr i) as [d Hd]; [lia|].
    rewrite (array_get_lookup _ _ _ Hd). simpl.
    rewrite IH by lia. simpl.
    rewrite (drop_S _ _ _ Hd). reflexivity.
Qed.

Lemma put_mtd_devices_members item c :
  item_wf item -> concat item = Some c ->
  mtd_virt_concat_put_mtd_devices c = Ok (map EvPutMtdDevice (members c)).
Proof.
  intros (c0 & Hc0 & _ & Hn & _ & Hs & _) Hc.
  rewrite Hc in Hc0. injection Hc0 as <-.
  unfold mtd_virt_concat_put_mtd_devices. rewrite put_loop_spec by (simpl; lia).
  reflexivity.
Qed.

Lemma destroy_joins_calls l : forall pos,
  registry_live l -> destroy_joins_from pos l = Ok (teardown_calls pos l).
Proof.
  induction l as [|s rest IH]; intros pos Hlive; simpl.
  - reflexivity.
  - apply Forall_cons in Hlive as [(item & -> & Hwf) Hrest].
    pose proof Hwf as (c & Hc & _). rewrite Hc.
    rewrite (put_mtd_devices_members _ _ Hwf Hc). simpl.
    rewrite (IH (S pos) Hrest). reflexivity.
Qed.

Lemma of_node_put_loop_ok arr todo : forall i,
  (i + todo <= length arr)%nat ->
  exists evs, of_node_put_loop arr i todo = Ok evs.
Proof.
  induction todo as [|todo IH]; intros i Hi; simpl.
  - eexists. reflexivity.
  - destruct (lookup_lt_is_Some_2 arr i) as [d Hd]; [lia|].
    rewrite (array_get_lookup _ _ _ Hd). simpl.
    destruct (IH (S i)) as [evs ->]; [lia|]. simpl. eexists. reflexivity.
Qed.

Lemma destroy_items_live l :
  registry_live l ->
  exists evs, mtd_virt_concat_destroy_items l = Ok (evs, map (fun _ => Freed) l).
Proof.
  induction l as [|s rest IH]; intros Hlive; simpl.
  - eexists. reflexivity.
  - apply Forall_cons in Hlive as [(item & -> & Hwf) Hrest].
    destruct Hwf as (c & _ & _ & _ & Hnd & _).
    destruct (of_node_put_loop_ok (nodes item) (Z.to_nat (count item)) 0%nat)
      as [e1 ->]; [simpl; lia|]. simpl.
    destruct (IH Hrest) as [e2 ->]. simpl. eexists. reflexivity.
Qed.

(** ** The configuration scan under allocation failure *)

Lemma scan_dt_live dt : forall cnt heap l,
  Forall (fun p => is_int (dt_phandle_count p)) dt ->
  registry_live l ->
  match scan_dt dt cnt heap l with
  | ScanDone _ _ l' => registry_live l'
  | ScanFailed ret _ _ l' => registry_live l' /\ ret = - ENOMEM
  end.
Proof.
  induction dt as [|p dt IH]; intros cnt heap l Hint Hlive; simpl.
  - exact Hlive.
  - apply Forall_cons in Hint as [Hp Hint].
    destruct (dt_available p); simpl; [|apply IH; assumption].
    destruct (dt_phandle_count p <? MIN_DEV_PER_CONCAT) eqn:Hlt;
      [apply IH; assumption|].
    destruct (qualifying_count p Hp Hlt) as [Hrange Hu]. rewrite Hu.
    destruct (create_item_cases p (dt_phandle_count p) heap l) as (h1 & [-> | ->]).
    + simpl. split; [exact Hlive|reflexivity].
    + simpl. apply IH; [exact Hint|].
      apply Forall_app. split; [exact Hlive|].
      constructor; [|constructor].
      exists (pending_item p). split; [reflexivity|]. apply (pending_item_wf p Hrange).
Qed.

(** A first call never faults; it either succeeds, leaving live items and
    making no call, or returns [-ENOMEM], leaving every item it created
    freed and still linked. *)
Lemma node_create_first_call dt count0 heap st :
  concat_node_list st = [] ->
  Forall (fun p => is_int (dt_phandle_count p)) dt ->
  exists ret st',
    mtd_virt_concat_node_create dt count0 heap st = Ok (ret, st')
    /\ ((registry_live (concat_node_list st') /\ trace st' = trace st)
        \/ (ret = - ENOMEM /\ Forall (fun s => s = Freed) (concat_node_list st'))).
Proof.
  intros Hempty Hint. unfold mtd_virt_concat_node_create. rewrite Hempty.
  pose proof (scan_dt_live dt count0 heap [] Hint (Forall_nil_2 _)) as Hscan.
  assert (forall ret l tr, registry_live l ->
            exists st', node_create_fail ret l tr = Ok (ret, st')
                        /\ Forall (fun s => s = Freed) (concat_node_list st')) as Hfail.
  { intros ret l tr Hl. unfold node_create_fail.
    destruct (destroy_items_live l Hl) as [evs ->]. simpl.
    eexists. split; [reflexivity|]. simpl.
    clear. induction l; simpl; constructor; auto. }
  destruct (scan_dt dt count0 heap []) as [cnt h l|r parts h l].
  - destruct (kalloc h) as [[|] h1]; simpl.
    + destruct (kalloc h1) as [[|] h2]; simpl.
      * eexists. eexists. split; [reflexivity|]. left. simpl. auto.
      * destruct (Hfail (- ENOMEM) l (trace st ++ [EvOfNodePut None]) Hscan)
          as (st' & -> & Hfreed).
        eexists. eexists. split; [reflexivity|]. right. auto.
    + destruct (Hfail (- ENOMEM) l (trace st ++ [EvOfNodePut None]) Hscan)
        as (st' & -> & Hfreed).
      eexists. eexists. split; [reflexivity|]. right. auto.
  - destruct Hscan as [Hlive ->].
    destruct (Hfail (- ENOMEM) l (trace st ++ [EvOfNodePut (Some (dt_self parts))]) Hlive)
      as (st' & -> & Hfreed).
    eexists. eexists. split; [reflexivity|]. right. auto.
Qed.

(** * Further properties of the driver *)

(** ** Offers *)

(** X1.  An offer that is refused leaves the driver's state exactly as it
    was, whatever the registry holds. *)
Theorem offer_refused_state_unchanged mtd st st' :
  offer mtd st = Ok (false, st') -> st' = st.
Proof.
  unfold offer. intros H.
  destruct (mtd_virt_concat_add (concat_node_list st) mtd) as [[b l']|] eqn:E;
    simpl in H; [|discriminate].
  injection H as -> <-. rewrite (add_false_unchanged _ _ _ E).
  destruct st. reflexivity.
Qed.

Lemma offer_refused_state_unchanged_witness :
  offer dev_E (offered [dev_A] (discovered dt_AB))
  = Ok (false, offered [dev_A] (discovered dt_AB))
  /\ offered [dev_A] (discovered dt_AB) = offered [dev_A] (discovered dt_AB).
Proof.
  split; [reflexivity|].
  exact (offer_refused_state_unchanged dev_E
           (offered [dev_A] (discovered dt_AB))
           (offered [dev_A] (discovered dt_AB)) eq_refl).
Defined.

(** X2.  On a registry of live, well-formed items an offer always returns
    (no null pointer, no access outside an array), and it returns [true]
    exactly when, in list order, the first group that is complete or
    expects the device is an incomplete group that expects it. *)
Theorem offer_accepted_iff l mtd :
  registry_live l ->
  exists b l',
    mtd_virt_concat_add l mtd = Ok (b, l')
    /\ (b = true <->
        exists pre item post,
          l = pre ++ Live item :: post
          /\ Forall (passed mtd) pre
          /\ ~ complete item /\ expects item mtd).
Proof. exact (add_true_iff l mtd). Qed.

Lemma offer_accepted_iff_witness :
  registry_live [Live group_AB_full; Live group_CD_empty]
  /\ exists b l',
       mtd_virt_concat_add [Live group_AB_full; Live group_CD_empty] dev_C = Ok (b, l')
       /\ (b = true <->
           exists pre item post,
             [Live group_AB_full; Live group_CD_empty] = pre ++ Live item :: post
             /\ Forall (passed dev_C) pre
             /\ ~ complete item /\ expects item dev_C).
Proof.
  assert (registry_live [Live group_AB_full; Live group_CD_empty]) as Hlive
    by concrete_live.
  split; [exact Hlive|].
  exact (offer_accepted_iff _ dev_C Hlive).
Defined.

Lemma add_accepted_effect l mtd l' :
  registry_live l ->
  mtd_virt_concat_add l mtd = Ok (true, l') ->
  exists pre item c post,
    l = pre ++ Live item :: post
    /\ Forall (passed mtd) pre
    /\ concat item = Some c
    /\ ~ complete item /\ expects item mtd
    /\ l' = pre ++ Live (accept item c mtd) :: post
    /\ (forall c', concat (accept item c mtd) = Some c' ->
          members c' = members c ++ [Some mtd]).
Proof.
  intros Hlive Hrun.
  destruct (add_true_iff l mtd Hlive) as (b & l0 & Hrun0 & Hiff).
  rewrite Hrun in Hrun0. injection Hrun0 as <- <-.
  destruct (proj1 Hiff eq_refl) as (pre & item & post & Hl & Hpre & Hopen & Hex).
  assert (item_wf item) as Hwf.
  { subst l. apply Forall_app in Hlive as [_ Hlive].
    apply Forall_cons in Hlive as [(it & Hit & Hwf) _]. injection Hit as ->. exact Hwf. }
  pose proof Hwf as (c & Hc & _).
  exists pre, item, c, post.
  split; [exact Hl|]. split; [exact Hpre|]. split; [exact Hc|].
  split; [exact Hopen|]. split; [exact Hex|]. split.
  - subst l. rewrite (add_reaches_match pre item c post mtd Hpre Hwf Hc Hopen Hex) in Hrun.
    injection Hrun as <-. reflexivity.
  - apply accept_members; auto.
    intros Heq. apply Hopen. apply (complete_iff _ _ Hwf Hc). exact Heq.
Qed.

(** X3.  When an offer is accepted on a live registry, exactly one entry
    changes: the first incomplete group expecting the device, every group
    before it being incomplete and not expecting it; the device is
    appended after that group's members, and all other entries, before and
    after, are as they were. *)
Theorem offer_accepted_appends_to_one_group l mtd l' :
  registry_live l ->
  mtd_virt_concat_add l mtd = Ok (true, l') ->
  exists pre item c post,
    l = pre ++ Live item :: post
    /\ Forall (passed mtd) pre
    /\ concat item = Some c
    /\ ~ complete item /\ expects item mtd
    /\ l' = pre ++ Live (accept item c mtd) :: post
    /\ (forall c', concat (accept item c mtd) = Some c' ->
          members c' = members c ++ [Some mtd]).
Proof. exact (add_accepted_effect l mtd l'). Qed.

Lemma offer_accepted_appends_to_one_group_witness :
  registry_live [Live group_AB_half; Live group_CD_empty]
  /\ mtd_virt_concat_add [Live group_AB_half; Live group_CD_empty] dev_D
     = Ok (true, [Live group_AB_half; Live (accept group_CD_empty
                    {| num_subdev := 0; subdev := [None; None] |} dev_D)])
  /\ exists pre item c post,
       [Live group_AB_half; Live group_CD_empty] = pre ++ Live item :: post
       /\ Forall (passed dev_D) pre
       /\ concat item = Some c
       /\ ~ complete item /\ expects item dev_D
       /\ [Live group_AB_half; Live (accept group_CD_empty
             {| num_subdev := 0; subdev := [None; None] |} dev_D)]
          = pre ++ Live (accept item c dev_D) :: post
       /\ (forall c', concat (accept item c dev_D) = Some c' ->
             members c' = members c ++ [Some dev_D]).
Proof.
  assert (registry_live [Live group_AB_half; Live group_CD_empty]) as Hlive
    by concrete_live.
  split; [exact Hlive|]. split; [reflexivity|].
  exact (offer_accepted_appends_to_one_group _ dev_D _ Hlive eq_refl).
Defined.

Lemma add_same_groups l mtd : forall b l',
  mtd_virt_concat_add l mtd = Ok (b, l') -> Forall2 same_group l l'.
Proof.
  induction l as [|[item|] rest IH]; intros b l' H; simpl in H.
  - injection H as <- <-. constructor.
  - assert (forall r, Forall2 same_group r r) as Hrefl.
    { induction r as [|[a|] r IHr]; constructor; simpl; auto. }
    destruct (concat item) as [c|]; simpl in H; [|discriminate].
    destruct (count item =? to_uint (num_subdev c)).
    { injection H as <- <-. apply Hrefl. }
    destruct (match_node _ _ _ _) as [hit|]; simpl in H; [|discriminate].
    destruct hit.
    + destruct (store_subdev c mtd) as [c'|]; simpl in H; [|discriminate].
      injection H as <- <-. constructor; [simpl; auto|apply Hrefl].
    + destruct (mtd_virt_concat_add rest mtd) as [[b0 rest0]|] eqn:E;
        simpl in H; [|discriminate].
      injection H as <- <-. constructor; [simpl; auto|].
      apply (IH b0). reflexivity.
  - discriminate.
Qed.

(** X4.  Whatever the registry holds, an offer that returns neither adds
    nor removes a group, and leaves every group's count and expected
    nodes as they were. *)
Theorem offer_keeps_groups_and_expected l mtd b l' :
  mtd_virt_concat_add l mtd = Ok (b, l') ->
  length l' = length l /\ Forall2 same_group l l'.
Proof.
  intros H. pose proof (add_same_groups l mtd b l' H) as Hsame.
  split; [|exact Hsame]. symmetry. apply (Forall2_length _ _ _ Hsame).
Qed.

Lemma offer_keeps_groups_and_expected_witness :
  mtd_virt_concat_add [Live group_AB_half; Live group_CD_empty] dev_B
  = Ok (true, [Live group_AB_full; Live group_CD_empty])
  /\ length [Live group_AB_full; Live group_CD_empty]
     = length [Live group_AB_half; Live group_CD_empty]
  /\ Forall2 same_group [Live group_AB_half; Live group_CD_empty]
                        [Live group_AB_full; Live group_CD_empty].
Proof.
  split; [reflexivity|].
  exact (offer_keeps_groups_and_expected
           [Live group_AB_half; Live group_CD_empty] dev_B true
           [Live group_AB_full; Live group_CD_empty] eq_refl).
Defined.

Lemma complete_head_refuses_all item rest devs :
  item_wf item -> complete item ->
  offer_all (Live item :: rest) devs
  = Ok (replicate (length devs) false, Live item :: rest).
Proof.
  intros Hwf Hcomp. pose proof Hwf as (c & Hc & _).
  assert (num_subdev c = count item) as Heq
    by (apply (complete_iff _ _ Hwf Hc); exact Hcomp).
  induction devs as [|d devs IH]; [reflexivity|].
  cbn [offer_all].
  rewrite (add_round_closed _ _ rest d Hwf Hc Heq). simpl.
  rewrite IH. reflexivity.
Qed.

(** X5.  Once the first group of the registry is complete, every later
    offer is refused and changes nothing, whatever the devices offered and
    whatever groups follow it in the list. *)
Theorem complete_first_group_refuses_every_offer item rest devs :
  item_wf item -> complete item ->
  offer_all (Live item :: rest) devs
  = Ok (replicate (length devs) false, Live item :: rest).
Proof. exact (complete_head_refuses_all item rest devs). Qed.

Lemma complete_first_group_refuses_every_offer_witness :
  item_wf group_AB_full
  /\ complete group_AB_full
  /\ offer_all [Live group_AB_full; Live group_CD_empty] [dev_C; dev_D; dev_A]
     = Ok (replicate (length [dev_C; dev_D; dev_A]) false,
           [Live group_AB_full; Live group_CD_empty]).
Proof.
  assert (item_wf group_AB_full) as Hwf by concrete_item_wf.
  assert (complete group_AB_full) as Hcomp by (eexists; split; reflexivity).
  split; [exact Hwf|]. split; [exact Hcomp|].
  exact (complete_first_group_refuses_every_offer group_AB_full
           [Live group_CD_empty] [dev_C; dev_D; dev_A] Hwf Hcomp).
Defined.

(** X6.  Devices offered to a group the scan reaches are all accepted, in
    the order of the calls, as long as each carries one of the group's
    expected nodes and the group has room; nothing prevents the same
    device, or two devices with the same node, from filling several
    cells. *)
Theorem offers_fill_group_in_call_order devs pre cnt nds c post :
  (forall d, d ∈ devs -> Forall (passed d) pre) ->
  item_wf {| count := cnt; nodes := nds; concat := Some c |} ->
  (forall d, d ∈ devs -> of_node (dev d) ∈ nds) ->
  num_subdev c + Z.of_nat (length devs) <= cnt ->
  exists c',
    offer_all (pre ++ Live {| count := cnt; nodes := nds; concat := Some c |} :: post) devs
    = Ok (replicate (length devs) true,
          pre ++ Live {| count := cnt; nodes := nds; concat := Some c' |} :: post)
    /\ item_wf {| count := cnt; nodes := nds; concat := Some c' |}
    /\ num_subdev c' = num_subdev c + Z.of_nat (length devs)
    /\ members c' = members c ++ map Some devs.
Proof. exact (offer_all_arrival devs pre cnt nds c post). Qed.

Lemma offers_fill_group_in_call_order_witness :
  (forall d, d ∈ [dev_C; dev_C; dev_A] -> Forall (passed d) [])
  /\ item_wf group_ABC_empty
  /\ (forall d, d ∈ [dev_C; dev_C; dev_A] ->
        of_node (dev d) ∈ [Some node_A; Some node_B; Some node_C])
  /\ 0 + Z.of_nat (length [dev_C; dev_C; dev_A]) <= 3
  /\ exists c',
       offer_all ([] ++ Live group_ABC_empty :: []) [dev_C; dev_C; dev_A]
       = Ok (replicate (length [dev_C; dev_C; dev_A]) true,
             [] ++ Live {| count := 3;
                           nodes := [Some node_A; Some node_B; Some node_C];
                           concat := Some c' |} :: [])
       /\ item_wf {| count := 3; nodes := [Some node_A; Some node_B; Some node_C];
                     concat := Some c' |}
       /\ num_subdev c' = 0 + Z.of_nat (length [dev_C; dev_C; dev_A])
       /\ members c' = members {| num_subdev := 0; subdev := [None; None; None] |}
                       ++ map Some [dev_C; dev_C; dev_A].
Proof.
  assert (forall d, d ∈ [dev_C; dev_C; dev_A] -> Forall (passed d) []) as Hpre
    by (intros; constructor).
  assert (item_wf group_ABC_empty) as Hwf by concrete_item_wf.
  assert (forall d, d ∈ [dev_C; dev_C; dev_A] ->
            of_node (dev d) ∈ [Some node_A; Some node_B; Some node_C]) as Hex.
  { intros d Hd. repeat (apply elem_of_cons in Hd as [->|Hd]);
      [| |  |inversion Hd]; simpl.
    - apply list_elem_of_further, list_elem_of_further, list_elem_of_here.
    - apply list_elem_of_further, list_elem_of_further, list_elem_of_here.
    - apply list_elem_of_here. }
  assert (0 + Z.of_nat (length [dev_C; dev_C; dev_A]) <= 3) as Hroom by (simpl; lia).
  split; [exact Hpre|]. split; [exact Hwf|]. split; [exact Hex|]. split; [exact Hroom|].
  exact (offers_fill_group_in_call_order [dev_C; dev_C; dev_A] []
           3 [Some node_A; Some node_B; Some node_C]
           {| num_subdev := 0; subdev := [None; None; None] |} [] Hpre Hwf Hex Hroom).
Defined.

(** ** The shape of reachable registries *)

Lemma item_tidy_members item c ms :
  concat item = Some c ->
  num_subdev c = Z.of_nat (length ms) ->
  subdev c = map Some ms ++ replicate (Z.to_nat (count item) - length ms)%nat None ->
  members c = map Some ms.
Proof.
  intros _ Hn Hs. unfold members. rewrite Hs, Hn, Nat2Z.id.
  rewrite take_app_length'; [reflexivity|]. symmetry. apply length_map.
Qed.

Lemma item_tidy_wf item : item_tidy item -> item_wf item.
Proof.
  intros (c & ms & Hc & Hcnt & Hnd & Hn & Hle & Hs & Hms).
  exists c. split; [exact Hc|]. split; [exact Hcnt|]. split; [lia|].
  split; [exact Hnd|]. split.
  - rewrite Hs, length_app, length_map, length_replicate. lia.
  - rewrite (item_tidy_members item c ms Hc Hn Hs).
    clear. induction ms; simpl; constructor; [eexists; reflexivity|assumption].
Qed.

Lemma registry_tidy_live l : registry_tidy l -> registry_live l.
Proof.
  intros H. eapply Forall_impl; [exact H|].
  intros s (item & -> & Ht). exists item. split; [reflexivity|].
  apply item_tidy_wf. exact Ht.
Qed.

Lemma pending_item_tidy p :
  MIN_DEV_PER_CONCAT <= dt_phandle_count p <= INT_MAX -> item_tidy (pending_item p).
Proof.
  intros H. eexists. exists []. split; [reflexivity|]. simpl.
  split; [exact H|]. split; [rewrite length_map, length_seq; reflexivity|].
  split; [reflexivity|]. unfold MIN_DEV_PER_CONCAT in *. split; [lia|].
  split; [rewrite Nat.sub_0_r; reflexivity|constructor].
Qed.

Lemma accept_tidy item c mtd :
  item_tidy item -> concat item = Some c -> num_subdev c <> count item ->
  expects item mtd -> item_tidy (accept item c mtd).
Proof.
  intros (c0 & ms & Hc0 & Hcnt & Hnd & Hn & Hle & Hs & Hms) Hc Hne Hex.
  rewrite Hc in Hc0. injection Hc0 as <-.
  eexists. exists (ms ++ [mtd]). split; [reflexivity|]. simpl.
  split; [exact Hcnt|]. split; [exact Hnd|].
  split; [rewrite length_app; simpl; lia|]. split; [lia|]. split.
  - rewrite Hs, Hn, Nat2Z.id.
    assert (exists k, (Z.to_nat (count item) - length ms)%nat = S k) as [k Hk].
    { exists (Z.to_nat (count item) - length ms - 1)%nat. lia. }
    rewrite Hk. simpl replicate.
    rewrite insert_app_r_alt by (rewrite length_map; lia).
    rewrite length_map, Nat.sub_diag. simpl.
    rewrite map_app, <- app_assoc. simpl.
    rewrite length_app. simpl.
    replace (Z.to_nat (count item) - (length ms + 1))%nat with k by lia.
    reflexivity.
  - apply Forall_app. split; [exact Hms|]. constructor; [exact Hex|constructor].
Qed.

Lemma add_preserves_tidy l mtd : forall b l',
  registry_tidy l -> mtd_virt_concat_add l mtd = Ok (b, l') -> registry_tidy l'.
Proof.
  induction l as [|s rest IH]; intros b l' Htidy H.
  - simpl in H. injection H as <- <-. constructor.
  - apply Forall_cons in Htidy as [(item & -> & Hitem) Hrest].
    pose proof (item_tidy_wf _ Hitem) as Hwf.
    destruct (item_cases item mtd Hwf) as (c & Hc & [Heq|[[Hne Hex]|[Hne Hex]]]).
    + rewrite (add_round_closed _ _ _ _ Hwf Hc Heq) in H.
      injection H as <- <-. constructor; [|assumption]. exists item. auto.
    + rewrite (add_round_match _ _ _ _ Hwf Hc Hne Hex) in H.
      injection H as <- <-. constructor; [|assumption].
      eexists. split; [reflexivity|]. apply accept_tidy; assumption.
    + rewrite (add_round_pass _ _ _ _ Hwf Hc Hne Hex) in H.
      destruct (mtd_virt_concat_add rest mtd) as [[b0 rest0]|] eqn:E;
        simpl in H; [|discriminate].
      injection H as <- <-. constructor; [exists item; auto|].
      apply (IH b0 rest0); [assumption|reflexivity].
Qed.

Lemma scan_dt_tidy dt : forall cnt heap l,
  Forall (fun p => is_int (dt_phandle_count p)) dt ->
  registry_tidy l ->
  match scan_dt dt cnt heap l with
  | ScanDone _ _ l' => registry_tidy l'
  | ScanFailed ret _ _ l' => registry_tidy l'
  end.
Proof.
  induction dt as [|p dt IH]; intros cnt heap l Hint Htidy; simpl.
  - exact Htidy.
  - apply Forall_cons in Hint as [Hp Hint].
    destruct (dt_available p); simpl; [|apply IH; assumption].
    destruct (dt_phandle_count p <? MIN_DEV_PER_CONCAT) eqn:Hlt;
      [apply IH; assumption|].
    destruct (qualifying_count p Hp Hlt) as [Hrange Hu]. rewrite Hu.
    destruct (create_item_cases p (dt_phandle_count p) heap l) as (h1 & [-> | ->]).
    + simpl. exact Htidy.
    + simpl. apply IH; [exact Hint|].
      apply Forall_app. split; [exact Htidy|].
      constructor; [|constructor].
      exists (pending_item p). split; [reflexivity|]. apply (pending_item_tidy p Hrange).
Qed.

Lemma dead_links (l : list slot) : registry_dead (map (fun _ => Freed) l).
Proof. induction l; simpl; constructor; auto. Qed.

Lemma node_create_fail_dead ret l tr r st' :
  node_create_fail ret l tr = Ok (r, st') -> registry_dead (concat_node_list st').
Proof.
  unfold node_create_fail. intros H.
  destruct (mtd_virt_concat_destroy_items l) as [[evs l']|] eqn:E;
    simpl in H; [|discriminate].
  injection H as <- <-. simpl.
  rewrite (destroy_items_links _ _ _ E). apply dead_links.
Qed.

Lemma dead_add_unchanged l mtd b l' :
  registry_dead l -> mtd_virt_concat_add l mtd = Ok (b, l') -> l' = l.
Proof.
  intros Hdead H. destruct l as [|s l]; simpl in H.
  - injection H as <- <-. reflexivity.
  - apply Forall_cons in Hdead as [-> _]. discriminate H.
Qed.

Lemma step_preserves_shape st st' :
  registry_tidy (concat_node_list st) \/ registry_dead (concat_node_list st) ->
  step st st' ->
  registry_tidy (concat_node_list st') \/ registry_dead (concat_node_list st').
Proof.
  intros Hinv Hstep. inversion Hstep as
    [dt count0 heap s ret s' Hint Hrun
    |mtd s b s' Hrun
    |core heap s ret s' Hrun
    |s s' Hrun]; subst.
  - unfold mtd_virt_concat_node_create in Hrun.
    destruct (concat_node_list st) as [|s0 l0] eqn:El.
    + pose proof (scan_dt_tidy dt count0 heap [] Hint (Forall_nil_2 _)) as Hscan.
      destruct (scan_dt dt count0 heap []) as [cnt h l|r parts h l].
      * destruct (kalloc h) as [[|] h1]; simpl in Hrun;
          [|right; apply (node_create_fail_dead _ _ _ _ _ Hrun)].
        destruct (kalloc h1) as [[|] h2]; simpl in Hrun;
          [|right; apply (node_create_fail_dead _ _ _ _ _ Hrun)].
        injection Hrun as <- <-. left. exact Hscan.
      * right. apply (node_create_fail_dead _ _ _ _ _ Hrun).
    + injection Hrun as <- <-. rewrite El. exact Hinv.
  - unfold offer in Hrun.
    destruct (mtd_virt_concat_add (concat_node_list st) mtd) as [[b0 l']|] eqn:E;
      simpl in Hrun; [|discriminate].
    injection Hrun as <- <-. simpl. destruct Hinv as [Htidy|Hdead].
    + left. exact (add_preserves_tidy _ _ _ _ Htidy E).
    + right. rewrite (dead_add_unchanged _ _ _ _ Hdead E). exact Hdead.
  - unfold mtd_virt_concat_create_join in Hrun.
    destruct (create_join_from core _ heap _) as [[r tr]|];
      simpl in Hrun; [|discriminate].
    injection Hrun as <- <-. simpl. exact Hinv.
  - unfold mtd_virt_concat_exit in Hrun.
    destruct (mtd_virt_concat_destroy_joins _) as [joins|];
      simpl in Hrun; [|discriminate].
    destruct (mtd_virt_concat_destroy_items _) as [[evs l']|] eqn:E;
      simpl in Hrun; [|discriminate].
    injection Hrun as <-. simpl. right.
    rewrite (destroy_items_links _ _ _ E). apply dead_links.
Qed.

Lemma reachable_shape st :
  reachable st ->
  registry_tidy (concat_node_list st) \/ registry_dead (concat_node_list st).
Proof.
  induction 1 as [|st st' _ IH Hstep].
  - left. constructor.
  - exact (step_preserves_shape _ _ IH Hstep).
Qed.

(** C7.  In every state the driver can reach, no group holds more members
    than it expects ([num_subdev] stays between 0 and [count]); every
    operation from such a state leads to a state where this still holds;
    and when the registry holds a complete group, an offer of any device,
    one carrying an expected node of that group included, returns, leaves
    that group exactly as it was, and leaves every group within its
    bound. *)
Theorem members_never_exceed_expected st :
  reachable st ->
  members_bounded (concat_node_list st)
  /\ (forall st', step st st' -> members_bounded (concat_node_list st'))
  /\ (forall mtd i item,
        concat_node_list st !! i = Some (Live item) ->
        complete item ->
        exists b st',
          offer mtd st = Ok (b, st')
          /\ concat_node_list st' !! i = Some (Live item)
          /\ members_bounded (concat_node_list st')).
Proof.
  intros Hreach. pose proof (reachable_wf _ Hreach) as Hwf.
  split; [|split].
  - apply wf_members_bounded. exact Hwf.
  - intros st' Hstep. apply wf_members_bounded.
    exact (step_preserves_wf _ _ Hwf Hstep).
  - intros mtd i item Hi Hcomp.
    assert (registry_live (concat_node_list st)) as Hlive.
    { destruct (reachable_shape _ Hreach) as [Htidy|Hdead].
      - apply registry_tidy_live. exact Htidy.
      - pose proof (proj1 (Forall_lookup _ _) Hdead _ _ Hi) as Hfreed.
        discriminate Hfreed. }
    destruct (add_true_iff _ mtd Hlive) as (b & l' & Hrun & _).
    exists b, {| concat_node_list := l'; trace := trace st |}.
    unfold offer. rewrite Hrun. simpl. split; [reflexivity|]. split.
    + exact (add_complete_untouched _ _ _ _ _ _ Hwf Hrun Hi Hcomp).
    + apply wf_members_bounded. exact (add_preserves_wf _ _ _ _ Hwf Hrun).
Qed.

Lemma members_never_exceed_expected_witness :
  reachable (offered [dev_A; dev_B] (discovered dt_AB_CD))
  /\ members_bounded (concat_node_list (offered [dev_A; dev_B] (discovered dt_AB_CD)))
  /\ (forall st', step (offered [dev_A; dev_B] (discovered dt_AB_CD)) st' ->
        members_bounded (concat_node_list st'))
  /\ (forall mtd i item,
        concat_node_list (offered [dev_A; dev_B] (discovered dt_AB_CD)) !! i
        = Some (Live item) ->
        complete item ->
        exists b st',
          offer mtd (offered [dev_A; dev_B] (discovered dt_AB_CD)) = Ok (b, st')
          /\ concat_node_list st' !! i = Some (Live item)
          /\ members_bounded (concat_node_list st')).
Proof.
  assert (reachable (offered [dev_A; dev_B] (discovered dt_AB_CD))) as Hreach.
  { apply offered_reachable. apply discovered_reachable. reflexivity. }
  split; [exact Hreach|].
  exact (members_never_exceed_expected _ Hreach).
Defined.

(** With [A; B] and [C; D] discovered and A, B arrived, the first group
    is complete, and offering again a device that carries one of its
    expected nodes returns [false] and changes nothing. *)
Example complete_group_refuses_its_own_device :
  concat_node_list (offered [dev_A; dev_B] (discovered dt_AB_CD)) !! 0%nat
  = Some (Live group_AB_full)
  /\ complete group_AB_full
  /\ expects group_AB_full dev_A
  /\ offer dev_A (offered [dev_A; dev_B] (discovered dt_AB_CD))
     = Ok (false, offered [dev_A; dev_B] (discovered dt_AB_CD)).
Proof.
  split; [reflexivity|]. split; [eexists; split; reflexivity|].
  split; [apply list_elem_of_here|reflexivity].
Qed.

(** X7.  In every state the driver can reach, the registry is of one of
    two kinds.  Either every entry is a live item with at least two and at
    most [INT_MAX] expected nodes, whose first [num_subdev] cells hold
    devices that each carry one of the item's expected nodes and whose
    other cells are still null; or every entry is a dangling link to a
    freed item.  Live and freed entries are never mixed. *)
Theorem reachable_registry_shape st :
  reachable st ->
  registry_tidy (concat_node_list st) \/ registry_dead (concat_node_list st).
Proof. exact (reachable_shape st). Qed.

Lemma reachable_registry_shape_witness :
  reachable (offered [dev_B; dev_A] (discovered dt_AB_CD))
  /\ (registry_tidy (concat_node_list (offered [dev_B; dev_A] (discovered dt_AB_CD)))
      \/ registry_dead (concat_node_list (offered [dev_B; dev_A] (discovered dt_AB_CD)))).
Proof.
  assert (reachable (offered [dev_B; dev_A] (discovered dt_AB_CD))) as Hreach.
  { apply offered_reachable, discovered_reachable. reflexivity. }
  split; [exact Hreach|].
  exact (reachable_registry_shape _ Hreach).
Defined.

(** ** The join loop *)

Lemma tidy_cells item c :
  item_tidy item -> concat item = Some c ->
  (num_subdev c = 0 /\ subdev c !! 0%nat = Some None)
  \/ (num_subdev c = 1 /\ (exists d0, subdev c !! 0%nat = Some (Some d0))
      /\ subdev c !! 1%nat = Some None)
  \/ (2 <= num_subdev c
      /\ exists d0 d1, subdev c !! 0%nat = Some (Some d0)
                       /\ subdev c !! 1%nat = Some (Some d1)).
Proof.
  intros (c0 & ms & Hc0 & Hcnt & Hnd & Hn & Hle & Hs & Hms) Hc.
  rewrite Hc in Hc0. injection Hc0 as <-. unfold MIN_DEV_PER_CONCAT in Hcnt.
  destruct ms as [|d0 [|d1 ms]]; simpl in Hn, Hs.
  - left. split; [exact Hn|]. rewrite Hs.
    apply lookup_replicate_2. lia.
  - right. left. split; [lia|]. rewrite Hs. split; [exists d0; reflexivity|].
    simpl. apply lookup_replicate_2. lia.
  - right. right. split; [lia|]. exists d0, d1. rewrite Hs. split; reflexivity.
Qed.

Lemma join_round_fault_iff core item c heap tr :
  item_tidy item -> concat item = Some c ->
  create_join_item core item heap tr = Fault NullDeref
  <-> num_subdev c < MIN_DEV_PER_CONCAT.
Proof.
  intros Htidy Hc. unfold MIN_DEV_PER_CONCAT.
  pose proof (item_tidy_wf _ Htidy) as Hwf.
  destruct (tidy_cells item c Htidy Hc)
    as [[Hn H0]|[(Hn & [d0 H0] & H1)|(Hn & d0 & d1 & H0 & H1)]].
  - split; [lia|]. intros _. unfold create_join_item. rewrite Hc. simpl.
    rewrite (array_get_lookup _ _ _ H0). reflexivity.
  - split; [lia|]. intros _. unfold create_join_item. rewrite Hc. simpl.
    rewrite (array_get_lookup _ _ _ H0). simpl.
    rewrite (array_get_lookup _ _ _ H1). reflexivity.
  - split; [|lia]. intros Hf. exfalso.
    destruct (kalloc heap) as [[|] heap'] eqn:Hk.
    + rewrite (create_join_item_complete core item c d0 d1 heap heap' tr Hc H0 H1 Hk)
        in Hf. discriminate Hf.
    + unfold create_join_item in Hf. rewrite Hc in Hf. simpl in Hf.
      rewrite (array_get_lookup _ _ _ H0), (array_get_lookup _ _ _ H1) in Hf.
      simpl in Hf. rewrite Hk in Hf. simpl in Hf.
      rewrite (put_mtd_devices_members _ _ Hwf Hc) in Hf. discriminate Hf.
Qed.

(** X8.  For a tidy item, one round of the join loop dereferences a null
    pointer exactly when the group holds fewer than two members; whether
    the group is complete plays no part. *)
Theorem join_round_faults_iff_under_two_members core item c heap tr :
  item_tidy item -> concat item = Some c ->
  create_join_item core item heap tr = Fault NullDeref
  <-> num_subdev c < MIN_DEV_PER_CONCAT.
Proof. exact (join_round_fault_iff core item c heap tr). Qed.

Lemma join_round_faults_iff_under_two_members_witness :
  item_tidy group_AB_half
  /\ concat group_AB_half = Some {| num_subdev := 1; subdev := [Some dev_A; None] |}
  /\ (create_join_item core_ok group_AB_half [] [] = Fault NullDeref
      <-> 1 < MIN_DEV_PER_CONCAT).
Proof.
  assert (item_tidy group_AB_half) as Htidy by (concrete_item_tidy [dev_A]).
  split; [exact Htidy|]. split; [reflexivity|].
  exact (join_round_faults_iff_under_two_members core_ok group_AB_half
           {| num_subdev := 1; subdev := [Some dev_A; None] |} [] [] Htidy eq_refl).
Defined.

Lemma join_round_partial core item c heap heap' tr :
  item_tidy item -> concat item = Some c ->
  MIN_DEV_PER_CONCAT <= num_subdev c ->
  kalloc heap = (true, heap') ->
  exists d0 d1 r,
    members c !! 0%nat = Some (Some d0)
    /\ members c !! 1%nat = Some (Some d1)
    /\ create_join_item core item heap tr = Ok r
    /\ build_requests (round_trace r)
       = build_requests tr ++ [(subdev c, num_subdev c)]
    /\ exists tail,
         round_trace r
         = tr ++ EvMtdConcatCreate (subdev c) (num_subdev c)
                   (concat_name d0 d1 (num_subdev c)) :: tail.
Proof.
  intros Htidy Hc Hmin Hk. unfold MIN_DEV_PER_CONCAT in Hmin.
  pose proof (item_tidy_wf _ Htidy) as Hwf.
  destruct (tidy_cells item c Htidy Hc)
    as [[Hn H0]|[(Hn & [d0 H0] & H1)|(Hn & d0 & d1 & H0 & H1)]]; try lia.
  exists d0, d1.
  pose proof (create_join_item_complete core item c d0 d1 heap heap' tr Hc H0 H1 Hk)
    as Hrun.
  cbv zeta in Hrun. rewrite sprintf_concat_name in Hrun.
  fold (concat_name d0 d1 (num_subdev c)) in Hrun.
  eexists. split; [|split; [|split; [exact Hrun|]]].
  - unfold members. rewrite lookup_take_lt by lia. exact H0.
  - unfold members. rewrite lookup_take_lt by lia. exact H1.
  - destruct (mtd_concat_create core _ _ _) as [built|]; simpl.
    + destruct (negb _); simpl; split.
      * unfold build_requests. rewrite !flat_map_app. simpl.
        rewrite app_nil_r. reflexivity.
      * rewrite <- app_assoc. eexists. reflexivity.
      * unfold build_requests. rewrite !flat_map_app. simpl.
        rewrite app_nil_r. reflexivity.
      * rewrite <- app_assoc. eexists. reflexivity.
    + split.
      * unfold build_requests. rewrite !flat_map_app. reflexivity.
      * exists []. reflexivity.
Qed.

(** X9.  A tidy group that holds at least two members is joined from the
    members present, complete or not: when the name is allocated, the
    round asks the engine to concatenate the group's array with
    [num_subdev] as the number of devices, under the name built from the
    first two members. *)
Theorem join_round_builds_from_members_present core item c heap heap' tr :
  item_tidy item -> concat item = Some c ->
  MIN_DEV_PER_CONCAT <= num_subdev c ->
  kalloc heap = (true, heap') ->
  exists d0 d1 r,
    members c !! 0%nat = Some (Some d0)
    /\ members c !! 1%nat = Some (Some d1)
    /\ create_join_item core item heap tr = Ok r
    /\ build_requests (round_trace r)
       = build_requests tr ++ [(subdev c, num_subdev c)]
    /\ exists tail,
         round_trace r
         = tr ++ EvMtdConcatCreate (subdev c) (num_subdev c)
                   (concat_name d0 d1 (num_subdev c)) :: tail.
Proof. exact (join_round_partial core item c heap heap' tr). Qed.

Lemma join_round_builds_from_members_present_witness :
  item_tidy group_ABC_two
  /\ concat group_ABC_two = Some conc_BA
  /\ MIN_DEV_PER_CONCAT <= num_subdev conc_BA
  /\ kalloc [] = (true, [])
  /\ exists d0 d1 r,
       members conc_BA !! 0%nat = Some (Some d0)
       /\ members conc_BA !! 1%nat = Some (Some d1)
       /\ create_join_item core_ok group_ABC_two [] [] = Ok r
       /\ build_requests (round_trace r)
          = build_requests [] ++ [(subdev conc_BA, num_subdev conc_BA)]
       /\ exists tail,
            round_trace r
            = [] ++ EvMtdConcatCreate (subdev conc_BA) (num_subdev conc_BA)
                      (concat_name d0 d1 (num_subdev conc_BA)) :: tail.
Proof.
  assert (item_tidy group_ABC_two) as Htidy by (concrete_item_tidy [dev_B; dev_A]).
  assert (MIN_DEV_PER_CONCAT <= num_subdev conc_BA) as Hmin
    by (unfold MIN_DEV_PER_CONCAT; simpl; lia).
  split; [exact Htidy|]. split; [reflexivity|]. split; [exact Hmin|].
  split; [reflexivity|].
  exact (join_round_builds_from_members_present core_ok group_ABC_two conc_BA
           [] [] [] Htidy eq_refl Hmin eq_refl).
Defined.

Lemma build_requests_app tr1 tr2 :
  build_requests (tr1 ++ tr2) = build_requests tr1 ++ build_requests tr2.
Proof. unfold build_requests. apply flat_map_app. Qed.

Lemma registrations_app tr1 tr2 :
  registrations (tr1 ++ tr2) = registrations tr1 ++ registrations tr2.
Proof. unfold registrations. apply flat_map_app. Qed.

Lemma join_round_success core item c heap tr :
  item_tidy item -> concat item = Some c ->
  MIN_DEV_PER_CONCAT <= num_subdev c ->
  never_fails heap -> core_succeeds core ->
  exists heap' nm m,
    never_fails heap'
    /\ create_join_item core item heap tr
       = Ok (Next heap' (tr ++ [EvMtdConcatCreate (subdev c) (num_subdev c) nm;
                                EvMtdDeviceRegister m])).
Proof.
  intros Htidy Hc Hmin Hheap [Hbuild Hreg]. unfold MIN_DEV_PER_CONCAT in Hmin.
  destruct (tidy_cells item c Htidy Hc)
    as [[Hn H0]|[(Hn & [d0 H0] & H1)|(Hn & d0 & d1 & H0 & H1)]]; try lia.
  destruct (kalloc_never_fails _ Hheap) as (heap' & Hk & Hheap').
  pose proof (create_join_item_complete core item c d0 d1 heap heap' tr Hc H0 H1 Hk)
    as Hrun.
  cbv zeta in Hrun.
  destruct (Hbuild (subdev c) (num_subdev c)
              (sprintf "%s-%s%s-concat"
                 [name d0; name d1;
                  if num_subdev c >? MIN_DEV_PER_CONCAT then "-+"%string else ""%string]))
    as [built Hb].
  rewrite Hb in Hrun. rewrite Hreg in Hrun. simpl in Hrun.
  rewrite <- app_assoc in Hrun. simpl in Hrun.
  eexists. eexists. eexists. split; [exact Hheap'|exact Hrun].
Qed.

Lemma join_pass_success core l : forall heap tr,
  Forall joinable l -> never_fails heap -> core_succeeds core ->
  exists tr',
    create_join_from core l heap tr = Ok (0, tr')
    /\ build_requests tr' = build_requests tr ++ group_requests l
    /\ length (registrations tr') = (length (registrations tr) + length l)%nat.
Proof.
  induction l as [|s l IH]; intros heap tr Hl Hheap Hcore.
  - exists tr. simpl. rewrite app_nil_r. split; [reflexivity|]. split; [reflexivity|lia].
  - apply Forall_cons in Hl as [(item & c & -> & Htidy & Hc & Hmin) Hl].
    destruct (join_round_success core item c heap tr Htidy Hc Hmin Hheap Hcore)
      as (heap' & nm & m & Hheap' & Hrun).
    simpl. rewrite Hrun. simpl.
    destruct (IH heap'
                (tr ++ [EvMtdConcatCreate (subdev c) (num_subdev c) nm;
                        EvMtdDeviceRegister m]) Hl Hheap' Hcore)
      as (tr' & Hrun' & Hreq & Hregs).
    exists tr'. split; [exact Hrun'|]. split.
    + rewrite Hreq, build_requests_app. simpl. rewrite Hc. simpl.
      rewrite <- app_assoc. reflexivity.
    + rewrite Hregs, registrations_app, length_app. simpl. lia.
Qed.

(** X10.  On a registry whose groups are tidy and hold at least two
    members each, with an allocator that never refuses, an engine that
    always builds and a core that always registers, the join pass returns
    0, leaves the registry as it was, and asks the engine for exactly one
    device per group, in list order, each over that group's array and
    fill count; it registers one device per group. *)
Theorem join_pass_builds_each_group_once core heap st :
  Forall joinable (concat_node_list st) ->
  never_fails heap -> core_succeeds core ->
  exists st',
    mtd_virt_concat_create_join core heap st = Ok (0, st')
    /\ concat_node_list st' = concat_node_list st
    /\ build_requests (trace st')
       = build_requests (trace st) ++ group_requests (concat_node_list st)
    /\ length (registrations (trace st'))
       = (length (registrations (trace st)) + length (concat_node_list st))%nat.
Proof.
  intros Hl Hheap Hcore. unfold mtd_virt_concat_create_join.
  destruct (join_pass_success core _ heap (trace st) Hl Hheap Hcore)
    as (tr' & -> & Hreq & Hregs).
  simpl. eexists. split; [reflexivity|]. simpl. auto.
Qed.

(** X11.  The join pass keeps no record of what it has joined: under the
    conditions of X10, a second pass succeeds as well and asks the engine
    to build every group a second time. *)
Theorem second_join_pass_builds_again core heap1 heap2 st :
  Forall joinable (concat_node_list st) ->
  never_fails heap1 -> never_fails heap2 -> core_succeeds core ->
  exists st1 st2,
    mtd_virt_concat_create_join core heap1 st = Ok (0, st1)
    /\ mtd_virt_concat_create_join core heap2 st1 = Ok (0, st2)
    /\ build_requests (trace st2)
       = build_requests (trace st) ++ group_requests (concat_node_list st)
         ++ group_requests (concat_node_list st).
Proof.
  intros Hl Hh1 Hh2 Hcore. unfold mtd_virt_concat_create_join.
  destruct (join_pass_success core _ heap1 (trace st) Hl Hh1 Hcore)
    as (tr1 & -> & Hreq1 & _). simpl.
  destruct (join_pass_success core _ heap2 tr1 Hl Hh2 Hcore)
    as (tr2 & Hrun2 & Hreq2 & _).
  exists {| concat_node_list := concat_node_list st; trace := tr1 |}.
  exists {| concat_node_list := concat_node_list st; trace := tr2 |}.
  split; [reflexivity|]. simpl. rewrite Hrun2. simpl.
  split; [reflexivity|].
  rewrite Hreq2, Hreq1, <- app_assoc. reflexivity.
Qed.

Lemma core_ok_succeeds : core_succeeds core_ok.
Proof. split; [intros; eexists; reflexivity|reflexivity]. Qed.

Lemma joinable_AB_BA : Forall joinable [Live group_AB_full; Live group_ABC_two].
Proof.
  constructor; [|constructor; [|constructor]].
  - exists group_AB_full, conc_AB. split; [reflexivity|].
    split; [concrete_item_tidy [dev_A; dev_B]|].
    split; [reflexivity|]. unfold MIN_DEV_PER_CONCAT. simpl. lia.
  - exists group_ABC_two, conc_BA. split; [reflexivity|].
    split; [concrete_item_tidy [dev_B; dev_A]|].
    split; [reflexivity|]. unfold MIN_DEV_PER_CONCAT. simpl. lia.
Qed.

Lemma join_pass_builds_each_group_once_witness :
  Forall joinable (concat_node_list st_AB_BA)
  /\ never_fails []
  /\ core_succeeds core_ok
  /\ exists st',
       mtd_virt_concat_create_join core_ok [] st_AB_BA = Ok (0, st')
       /\ concat_node_list st' = concat_node_list st_AB_BA
       /\ build_requests (trace st')
          = build_requests (trace st_AB_BA) ++ group_requests (concat_node_list st_AB_BA)
       /\ length (registrations (trace st'))
          = (length (registrations (trace st_AB_BA)) + length (concat_node_list st_AB_BA))%nat.
Proof.
  assert (never_fails []) as Hheap by constructor.
  split; [exact joinable_AB_BA|]. split; [exact Hheap|].
  split; [exact core_ok_succeeds|].
  exact (join_pass_builds_each_group_once core_ok [] st_AB_BA
           joinable_AB_BA Hheap core_ok_succeeds).
Defined.

Lemma second_join_pass_builds_again_witness :
  Forall joinable (concat_node_list st_AB_BA)
  /\ never_fails []
  /\ never_fails [true]
  /\ core_succeeds core_ok
  /\ exists st1 st2,
       mtd_virt_concat_create_join core_ok [] st_AB_BA = Ok (0, st1)
       /\ mtd_virt_concat_create_join core_ok [true] st1 = Ok (0, st2)
       /\ build_requests (trace st2)
          = build_requests (trace st_AB_BA) ++ group_requests (concat_node_list st_AB_BA)
            ++ group_requests (concat_node_list st_AB_BA).
Proof.
  assert (never_fails []) as Hh1 by constructor.
  assert (never_fails [true]) as Hh2 by (repeat constructor).
  split; [exact joinable_AB_BA|]. split; [exact Hh1|]. split; [exact Hh2|].
  split; [exact core_ok_succeeds|].
  exact (second_join_pass_builds_again core_ok [] [true] st_AB_BA
           joinable_AB_BA Hh1 Hh2 core_ok_succeeds).
Defined.

Lemma join_name_alloc_failure core item c rest heap heap' tr :
  item_tidy item -> concat item = Some c ->
  MIN_DEV_PER_CONCAT <= num_subdev c ->
  kalloc heap = (false, heap') ->
  create_join_from core (Live item :: rest) heap tr
  = Ok (- ENOMEM, tr ++ map EvPutMtdDevice (members c)).
Proof.
  intros Htidy Hc Hmin Hk. unfold MIN_DEV_PER_CONCAT in Hmin.
  pose proof (item_tidy_wf _ Htidy) as Hwf.
  destruct (tidy_cells item c Htidy Hc)
    as [[Hn H0]|[(Hn & [d0 H0] & H1)|(Hn & d0 & d1 & H0 & H1)]]; try lia.
  simpl. unfold create_join_item. rewrite Hc. simpl.
  rewrite (array_get_lookup _ _ _ H0), (array_get_lookup _ _ _ H1). simpl.
  rewrite Hk. simpl.
  rewrite (put_mtd_devices_members _ _ Hwf Hc). reflexivity.
Qed.

(** X12.  When the buffer for the name of a group cannot be allocated,
    the join pass ends at that group with [-ENOMEM]: it releases that
    group's members, one call per member in arrival order, makes no other
    call, and never looks at the groups behind it. *)
Theorem join_name_allocation_failure_releases_members
  core item c rest heap heap' tr :
  item_tidy item -> concat item = Some c ->
  MIN_DEV_PER_CONCAT <= num_subdev c ->
  kalloc heap = (false, heap') ->
  create_join_from core (Live item :: rest) heap tr
  = Ok (- ENOMEM, tr ++ map EvPutMtdDevice (members c)).
Proof. exact (join_name_alloc_failure core item c rest heap heap' tr). Qed.

Lemma join_name_allocation_failure_releases_members_witness :
  item_tidy group_ABC_two
  /\ concat group_ABC_two = Some conc_BA
  /\ MIN_DEV_PER_CONCAT <= num_subdev conc_BA
  /\ kalloc [false] = (false, [])
  /\ create_join_from core_ok [Live group_ABC_two; Freed] [false] []
     = Ok (- ENOMEM, [] ++ map EvPutMtdDevice (members conc_BA)).
Proof.
  assert (item_tidy group_ABC_two) as Htidy by (concrete_item_tidy [dev_B; dev_A]).
  assert (MIN_DEV_PER_CONCAT <= num_subdev conc_BA) as Hmin
    by (unfold MIN_DEV_PER_CONCAT; simpl; lia).
  split; [exact Htidy|]. split; [reflexivity|]. split; [exact Hmin|].
  split; [reflexivity|].
  exact (join_name_allocation_failure_releases_members core_ok group_ABC_two
           conc_BA [Freed] [false] [] [] Htidy eq_refl Hmin eq_refl).
Defined.

Lemma join_register_failure core item c d0 d1 built rest heap heap' tr :
  concat item = Some c ->
  subdev c !! 0%nat = Some (Some d0) ->
  subdev c !! 1%nat = Some (Some d1) ->
  kalloc heap = (true, heap') ->
  mtd_concat_create core (subdev c) (num_subdev c) (concat_name d0 d1 (num_subdev c))
  = Some built ->
  mtd_device_register core {| name := name built; dev := dev d0 |} <> 0 ->
  create_join_from core (Live item :: rest) heap tr
  = Ok (mtd_device_register core {| name := name built; dev := dev d0 |},
        tr ++ [EvMtdConcatCreate (subdev c) (num_subdev c)
                 (concat_name d0 d1 (num_subdev c));
               EvMtdDeviceRegister {| name := name built; dev := dev d0 |};
               EvMtdConcatDestroy (Built {| name := name built; dev := dev d0 |})]).
Proof.
  intros Hc H0 H1 Hk Hb Hreg. simpl.
  rewrite (create_join_item_complete core item c d0 d1 heap heap' tr Hc H0 H1 Hk).
  cbv zeta. rewrite sprintf_concat_name.
  fold (concat_name d0 d1 (num_subdev c)). rewrite Hb.
  apply Z.eqb_neq in Hreg. rewrite Hreg. simpl.
  rewrite <- app_assoc. reflexivity.
Qed.

(** X13.  When the registration of a freshly built device fails, the
    join pass ends at that group with the code the registration returned:
    after the calls to the engine and to the registration, its only
    further call destroys the device just built.  No member is released,
    devices registered for earlier groups stay registered, and the groups
    behind are never looked at. *)
Theorem join_registration_failure_destroys_built_device
  core item c d0 d1 built rest heap heap' tr :
  concat item = Some c ->
  subdev c !! 0%nat = Some (Some d0) ->
  subdev c !! 1%nat = Some (Some d1) ->
  kalloc heap = (true, heap') ->
  mtd_concat_create core (subdev c) (num_subdev c) (concat_name d0 d1 (num_subdev c))
  = Some built ->
  mtd_device_register core {| name := name built; dev := dev d0 |} <> 0 ->
  create_join_from core (Live item :: rest) heap tr
  = Ok (mtd_device_register core {| name := name built; dev := dev d0 |},
        tr ++ [EvMtdConcatCreate (subdev c) (num_subdev c)
                 (concat_name d0 d1 (num_subdev c));
               EvMtdDeviceRegister {| name := name built; dev := dev d0 |};
               EvMtdConcatDestroy (Built {| name := name built; dev := dev d0 |})]).
Proof. exact (join_register_failure core item c d0 d1 built rest heap heap' tr). Qed.

Lemma join_registration_failure_destroys_built_device_witness :
  concat group_AB_full = Some conc_AB
  /\ subdev conc_AB !! 0%nat = Some (Some dev_A)
  /\ subdev conc_AB !! 1%nat = Some (Some dev_B)
  /\ kalloc [] = (true, [])
  /\ mtd_concat_create core_register_fails (subdev conc_AB) (num_subdev conc_AB)
       (concat_name dev_A dev_B (num_subdev conc_AB))
     = Some (part "A-B-concat" None)
  /\ mtd_device_register core_register_fails
       {| name := name (part "A-B-concat" None); dev := dev dev_A |} <> 0
  /\ create_join_from core_register_fails [Live group_AB_full; Live group_CD_empty] [] []
     = Ok (mtd_device_register core_register_fails
             {| name := name (part "A-B-concat" None); dev := dev dev_A |},
           [] ++ [EvMtdConcatCreate (subdev conc_AB) (num_subdev conc_AB)
                    (concat_name dev_A dev_B (num_subdev conc_AB));
                  EvMtdDeviceRegister
                    {| name := name (part "A-B-concat" None); dev := dev dev_A |};
                  EvMtdConcatDestroy
                    (Built {| name := name (part "A-B-concat" None);
                              dev := dev dev_A |})]).
Proof.
  assert (mtd_device_register core_register_fails
            {| name := name (part "A-B-concat" None); dev := dev dev_A |} <> 0) as Hreg
    by (simpl; lia).
  split; [reflexivity|]. split; [reflexivity|]. split; [reflexivity|].
  split; [reflexivity|]. split; [reflexivity|]. split; [exact Hreg|].
  exact (join_registration_failure_destroys_built_device core_register_fails
           group_AB_full conc_AB dev_A dev_B (part "A-B-concat" None)
           [Live group_CD_empty] [] [] [] eq_refl eq_refl eq_refl eq_refl eq_refl Hreg).
Defined.

(** ** Teardown *)

Lemma of_node_put_loop_spec arr todo : forall i,
  (i + todo <= length arr)%nat ->
  of_node_put_loop arr i todo = Ok (map EvOfNodePut (take todo (drop i arr))).
Proof.
  induction todo as [|todo IH]; intros i Hi; simpl.
  - reflexivity.
  - destruct (lookup_lt_is_Some_2 arr i) as [d Hd]; [lia|].
    rewrite (array_get_lookup _ _ _ Hd). simpl.
    rewrite IH by lia. simpl.
    rewrite (drop_S _ _ _ Hd). reflexivity.
Qed.

Lemma destroy_items_calls l :
  registry_live l ->
  mtd_virt_concat_destroy_items l = Ok (node_puts l, map (fun _ => Freed) l).
Proof.
  induction l as [|s rest IH]; intros Hlive; simpl.
  - reflexivity.
  - apply Forall_cons in Hlive as [(item & -> & Hwf) Hrest].
    destruct Hwf as (c & _ & _ & _ & Hnd & _).
    rewrite of_node_put_loop_spec by (simpl; lia).
    rewrite drop_0, take_ge by lia. simpl.
    rewrite (IH Hrest). reflexivity.
Qed.

(** X14.  On a live registry [mtd_virt_concat_destroy_joins] treats every
    group alike, joined or not: for each, in list order, it unregisters
    the group's embedded device, destroys it, then releases the members,
    one call per member in arrival order; it makes no other call. *)
Theorem destroy_joins_handles_every_group l :
  registry_live l ->
  mtd_virt_concat_destroy_joins l = Ok (teardown_calls 0 l).
Proof. intros Hlive. exact (destroy_joins_calls l 0%nat Hlive). Qed.

Lemma destroy_joins_handles_every_group_witness :
  registry_live [Live group_AB_half; Live group_CD_empty]
  /\ mtd_virt_concat_destroy_joins [Live group_AB_half; Live group_CD_empty]
     = Ok (teardown_calls 0 [Live group_AB_half; Live group_CD_empty]).
Proof.
  assert (registry_live [Live group_AB_half; Live group_CD_empty]) as Hlive
    by concrete_live.
  split; [exact Hlive|].
  exact (destroy_joins_handles_every_group _ Hlive).
Defined.

(** X15.  On a live registry [mtd_virt_concat_destroy_items] releases
    every expected node of every group once, in list and array order,
    null entries included, and frees every item; no item is unlinked, so
    the list keeps its length and every entry becomes a dangling link. *)
Theorem destroy_items_releases_nodes_and_keeps_links l :
  registry_live l ->
  mtd_virt_concat_destroy_items l = Ok (node_puts l, map (fun _ => Freed) l).
Proof. exact (destroy_items_calls l). Qed.

Lemma destroy_items_releases_nodes_and_keeps_links_witness :
  registry_live [Live group_AB_half; Live group_Cnull_empty]
  /\ mtd_virt_concat_destroy_items [Live group_AB_half; Live group_Cnull_empty]
     = Ok (node_puts [Live group_AB_half; Live group_Cnull_empty],
           map (fun _ => Freed) [Live group_AB_half; Live group_Cnull_empty]).
Proof.
  assert (registry_live [Live group_AB_half; Live group_Cnull_empty]) as Hlive
    by concrete_live.
  split; [exact Hlive|].
  exact (destroy_items_releases_nodes_and_keeps_links _ Hlive).
Defined.

Lemma exit_live st :
  registry_live (concat_node_list st) ->
  mtd_virt_concat_exit st
  = Ok {| concat_node_list := map (fun _ => Freed) (concat_node_list st);
          trace := trace st ++ teardown_calls 0 (concat_node_list st)
                   ++ node_puts (concat_node_list st) |}.
Proof.
  intros Hlive. unfold mtd_virt_concat_exit, mtd_virt_concat_destroy_joins.
  rewrite (destroy_joins_calls _ 0%nat Hlive). simpl.
  rewrite (destroy_items_calls _ Hlive). reflexivity.
Qed.

Lemma dead_registry_unusable core heap mtd dt count0 st :
  registry_dead (concat_node_list st) -> concat_node_list st <> [] ->
  offer mtd st = Fault UseAfterFree
  /\ mtd_virt_concat_create_join core heap st = Fault UseAfterFree
  /\ mtd_virt_concat_exit st = Fault UseAfterFree
  /\ mtd_virt_concat_node_create dt count0 heap st = Ok (0, st).
Proof.
  intros Hdead Hne.
  unfold offer, mtd_virt_concat_create_join, mtd_virt_concat_exit,
    mtd_virt_concat_destroy_joins, mtd_virt_concat_node_create.
  destruct (concat_node_list st) as [|s l]; [contradiction|].
  apply Forall_cons in Hdead as [-> _]. simpl. auto.
Qed.

(** X16.  Teardown cannot be run twice: on a live, non-empty registry the
    first [mtd_virt_concat_exit] succeeds and leaves only dangling links,
    and a second one reads a freed item. *)
Theorem exit_twice_reads_freed_item st :
  registry_live (concat_node_list st) -> concat_node_list st <> [] ->
  exists st',
    mtd_virt_concat_exit st = Ok st'
    /\ registry_dead (concat_node_list st')
    /\ length (concat_node_list st') = length (concat_node_list st)
    /\ mtd_virt_concat_exit st' = Fault UseAfterFree.
Proof.
  intros Hlive Hne. rewrite (exit_live st Hlive).
  eexists. split; [reflexivity|]. simpl.
  split; [apply dead_links|]. split; [apply length_map|].
  destruct (concat_node_list st) as [|s l]; [contradiction|]. reflexivity.
Qed.

Lemma exit_twice_reads_freed_item_witness :
  registry_live (concat_node_list st_AB_BA)
  /\ concat_node_list st_AB_BA <> []
  /\ exists st',
       mtd_virt_concat_exit st_AB_BA = Ok st'
       /\ registry_dead (concat_node_list st')
       /\ length (concat_node_list st') = length (concat_node_list st_AB_BA)
       /\ mtd_virt_concat_exit st' = Fault UseAfterFree.
Proof.
  assert (registry_live (concat_node_list st_AB_BA)) as Hlive
    by (simpl; concrete_live).
  assert (concat_node_list st_AB_BA <> []) as Hne by discriminate.
  split; [exact Hlive|]. split; [exact Hne|].
  exact (exit_twice_reads_freed_item st_AB_BA Hlive Hne).
Defined.

(** X17.  Once the registry holds dangling links (after a failed scan or
    after teardown), it stays out of use: every offer, every join pass and
    every teardown reads a freed item, and every configuration scan sees a
    non-empty list, returns 0 and changes nothing. *)
Theorem dead_registry_stays_dead core heap mtd dt count0 st :
  registry_dead (concat_node_list st) -> concat_node_list st <> [] ->
  offer mtd st = Fault UseAfterFree
  /\ mtd_virt_concat_create_join core heap st = Fault UseAfterFree
  /\ mtd_virt_concat_exit st = Fault UseAfterFree
  /\ mtd_virt_concat_node_create dt count0 heap st = Ok (0, st).
Proof. exact (dead_registry_unusable core heap mtd dt count0 st). Qed.

Lemma dead_registry_stays_dead_witness :
  registry_dead (concat_node_list st_failed_scan)
  /\ concat_node_list st_failed_scan <> []
  /\ offer dev_A st_failed_scan = Fault UseAfterFree
  /\ mtd_virt_concat_create_join core_ok [] st_failed_scan = Fault UseAfterFree
  /\ mtd_virt_concat_exit st_failed_scan = Fault UseAfterFree
  /\ mtd_virt_concat_node_create dt_AB 7 [] st_failed_scan = Ok (0, st_failed_scan).
Proof.
  assert (registry_dead (concat_node_list st_failed_scan)) as Hdead
    by (repeat constructor).
  assert (concat_node_list st_failed_scan <> []) as Hne by discriminate.
  split; [exact Hdead|]. split; [exact Hne|].
  exact (dead_registry_stays_dead core_ok [] dev_A dt_AB 7 st_failed_scan Hdead Hne).
Defined.

(** ** The configuration scan, allocation by allocation *)

Lemma create_item_first_failure parts cnt k more l :
  mtd_virt_concat_create_item parts cnt (replicate k true ++ false :: more) l
  = if (k <? 4)%nat
    then (- ENOMEM, more, l)
    else (0, replicate (k - 4) true ++ false :: more,
          l ++ [Live {| count := cnt;
                        nodes := map (fun i => dt_parse_phandle parts (Z.of_nat i))
                                     (seq 0 (Z.to_nat cnt));
                        concat := Some {| num_subdev := 0;
                                          subdev := replicate (Z.to_nat cnt) None |} |}]).
Proof.
  unfold mtd_virt_concat_create_item.
  destruct k as [|[|[|[|k]]]]; simpl; try reflexivity.
  rewrite Nat.sub_0_r. reflexivity.
Qed.

Lemma scan_dt_first_failure dt : forall k cnt more l,
  Forall (fun p => is_int (dt_phandle_count p)) dt ->
  ((k < 4 * length (List.filter qualifying dt))%nat ->
     exists parts h,
       scan_dt dt cnt (replicate k true ++ false :: more) l
       = ScanFailed (- ENOMEM) parts h
           (l ++ map (fun p => Live (pending_item p))
                     (take (k / 4) (List.filter qualifying dt))))
  /\ ((4 * length (List.filter qualifying dt) <= k)%nat ->
        scan_dt dt cnt (replicate k true ++ false :: more) l
        = ScanDone (last_count dt cnt)
            (replicate (k - 4 * length (List.filter qualifying dt)) true
               ++ false :: more)
            (l ++ map (fun p => Live (pending_item p)) (List.filter qualifying dt))).
Proof.
  induction dt as [|p dt IH]; intros k cnt more l Hint.
  - simpl. split; [lia|]. intros _. rewrite Nat.sub_0_r, app_nil_r. reflexivity.
  - apply Forall_cons in Hint as [Hp Hint].
    simpl scan_dt. simpl List.filter. simpl last_count.
    destruct (qualifying p) eqn:Hq; unfold qualifying in Hq.
    2:{ destruct (dt_available p); simpl in Hq |- *; [|apply IH; exact Hint].
        replace (dt_phandle_count p <? MIN_DEV_PER_CONCAT) with true
          by (symmetry; apply Z.ltb_lt; apply Z.leb_gt; exact Hq).
        apply IH; exact Hint. }
    + apply andb_prop in Hq as [Ha Hle]. rewrite Ha. simpl negb. cbv iota.
      assert ((dt_phandle_count p <? MIN_DEV_PER_CONCAT) = false) as Hlt
        by (apply Z.ltb_ge; apply Z.leb_le; exact Hle).
      rewrite Hlt.
      destruct (qualifying_count p Hp Hlt) as [Hrange Hu].
      rewrite Hu, create_item_first_failure.
      fold (pending_item p).
      destruct (k <? 4)%nat eqn:Hk.
      * apply Nat.ltb_lt in Hk. split; [|simpl length; lia].
        intros _. rewrite (Nat.div_small k 4 Hk). simpl. rewrite app_nil_r.
        eexists. eexists. reflexivity.
      * apply Nat.ltb_ge in Hk. cbv beta iota zeta. simpl negb. cbv iota.
        destruct (IH (k - 4)%nat (dt_phandle_count p) more
                    (l ++ [Live (pending_item p)]) Hint) as [Hfail Hdone].
        assert (k / 4 = S ((k - 4) / 4))%nat as Hdiv.
        { replace k with (1 * 4 + (k - 4))%nat at 1 by lia.
          rewrite Nat.div_add_l by lia. reflexivity. }
        simpl length. split.
        -- intros Hlt4. destruct Hfail as (parts & h & ->); [lia|].
           rewrite Hdiv. simpl. rewrite <- app_assoc. simpl.
           eexists. eexists. reflexivity.
        -- intros Hge. rewrite Hdone by lia.
           replace (k - 4 - 4 * length (List.filter qualifying dt))%nat
             with (k - 4 * S (length (List.filter qualifying dt)))%nat by lia.
           rewrite <- app_assoc. reflexivity.
Qed.

Lemma freed_links_replicate (l : list slot) :
  map (fun _ => Freed) l = replicate (length l) Freed.
Proof. induction l; simpl; [reflexivity|f_equal; assumption]. Qed.

Lemma node_create_fail_live ret l tr :
  registry_live l ->
  exists st',
    node_create_fail ret l tr = Ok (ret, st')
    /\ concat_node_list st' = replicate (length l) Freed.
Proof.
  intros Hlive. unfold node_create_fail.
  destruct (destroy_items_live l Hlive) as [evs ->]. simpl.
  eexists. split; [reflexivity|]. simpl. apply freed_links_replicate.
Qed.

Lemma node_create_first_failure dt count0 k more st :
  concat_node_list st = [] ->
  Forall (fun p => is_int (dt_phandle_count p)) dt ->
  (k < 4 * length (List.filter qualifying dt) + 2)%nat ->
  exists st',
    mtd_virt_concat_node_create dt count0 (replicate k true ++ false :: more) st
    = Ok (- ENOMEM, st')
    /\ concat_node_list st'
       = replicate (Nat.min (k / 4) (length (List.filter qualifying dt))) Freed.
Proof.
  intros Hempty Hint Hk. unfold mtd_virt_concat_node_create. rewrite Hempty.
  pose proof (scan_dt_live dt count0 (replicate k true ++ false :: more) []
                Hint (Forall_nil_2 _)) as Hlive.
  destruct (scan_dt_first_failure dt k count0 more [] Hint) as [Hfail Hdone].
  set (n := length (List.filter qualifying dt)) in *.
  destruct (Nat.lt_ge_cases k (4 * n)) as [Hlt|Hge].
  - destruct (Hfail Hlt) as (parts & h & Hscan). rewrite Hscan in *.
    destruct Hlive as [Hlive _].
    destruct (node_create_fail_live (- ENOMEM) _
                (trace st ++ [EvOfNodePut (Some (dt_self parts))]) Hlive)
      as (st' & -> & Hl).
    exists st'. split; [reflexivity|]. rewrite Hl. simpl.
    rewrite length_map, length_take. fold n. reflexivity.
  - rewrite (Hdone Hge) in *.
    assert (Nat.min (k / 4) n = n) as Hmin.
    { apply Nat.min_r. apply Nat.div_le_lower_bound; lia. }
    rewrite Hmin.
    destruct (node_create_fail_live (- ENOMEM) _
                (trace st ++ [EvOfNodePut None]) Hlive) as (st' & Hrun & Hl).
    simpl in Hl. rewrite length_map in Hl. fold n in Hl.
    assert (k - 4 * n = 0 \/ k - 4 * n = 1)%nat as [-> | ->] by lia; simpl.
    + exists st'. split; [exact Hrun|exact Hl].
    + exists st'. split; [exact Hrun|exact Hl].
Qed.

Lemma create_item_enough parts cnt k more l :
  (4 <= k)%nat ->
  mtd_virt_concat_create_item parts cnt (replicate k true ++ more) l
  = (0, replicate (k - 4) true ++ more,
     l ++ [Live {| count := cnt;
                   nodes := map (fun i => dt_parse_phandle parts (Z.of_nat i))
                                (seq 0 (Z.to_nat cnt));
                   concat := Some {| num_subdev := 0;
                                     subdev := replicate (Z.to_nat cnt) None |} |}]).
Proof.
  intros Hk. unfold mtd_virt_concat_create_item.
  destruct k as [|[|[|[|k]]]]; try lia. simpl.
  rewrite Nat.sub_0_r. reflexivity.
Qed.

Lemma scan_dt_enough dt : forall k cnt more l,
  Forall (fun p => is_int (dt_phandle_count p)) dt ->
  (4 * length (List.filter qualifying dt) <= k)%nat ->
  scan_dt dt cnt (replicate k true ++ more) l
  = ScanDone (last_count dt cnt)
      (replicate (k - 4 * length (List.filter qualifying dt)) true ++ more)
      (l ++ map (fun p => Live (pending_item p)) (List.filter qualifying dt)).
Proof.
  induction dt as [|p dt IH]; intros k cnt more l Hint Hk.
  - simpl. rewrite Nat.sub_0_r, app_nil_r. reflexivity.
  - apply Forall_cons in Hint as [Hp Hint].
    simpl scan_dt. simpl List.filter in *. simpl last_count.
    destruct (qualifying p) eqn:Hq; unfold qualifying in Hq.
    2:{ destruct (dt_available p); simpl in Hq |- *; [|apply IH; assumption].
        replace (dt_phandle_count p <? MIN_DEV_PER_CONCAT) with true
          by (symmetry; apply Z.ltb_lt; apply Z.leb_gt; exact Hq).
        apply IH; assumption. }
    apply andb_prop in Hq as [Ha Hle]. rewrite Ha. simpl negb. cbv iota.
    assert ((dt_phandle_count p <? MIN_DEV_PER_CONCAT) = false) as Hlt
      by (apply Z.ltb_ge; apply Z.leb_le; exact Hle).
    rewrite Hlt.
    destruct (qualifying_count p Hp Hlt) as [Hrange Hu].
    simpl length in Hk.
    rewrite Hu, create_item_enough by lia.
    fold (pending_item p). cbv beta iota zeta. simpl negb. cbv iota.
    rewrite IH by (try assumption; lia).
    simpl length.
    replace (k - 4 - 4 * length (List.filter qualifying dt))%nat
      with (k - 4 * S (length (List.filter qualifying dt)))%nat by lia.
    rewrite <- app_assoc. reflexivity.
Qed.

Lemma node_create_enough dt count0 more st :
  concat_node_list st = [] ->
  Forall (fun p => is_int (dt_phandle_count p)) dt ->
  exists ret st',
    mtd_virt_concat_node_create dt count0
      (replicate (4 * length (List.filter qualifying dt) + 2) true ++ more) st
    = Ok (ret, st')
    /\ concat_node_list st'
       = map (fun p => Live (pending_item p)) (List.filter qualifying dt).
Proof.
  intros Hempty Hint. unfold mtd_virt_concat_node_create. rewrite Hempty.
  rewrite (scan_dt_enough dt _ count0 more [] Hint) by lia.
  replace (4 * length (List.filter qualifying dt) + 2
           - 4 * length (List.filter qualifying dt))%nat with 2%nat by lia.
  simpl. eexists. eexists. split; reflexivity.
Qed.

(** X18.  The outcome of a first scan of a configuration with N
    qualifying nodes is decided by its first 4 N + 2 allocations, four per
    group and two at the end.  If they all succeed the scan returns with
    the N groups in the registry, whatever later allocations would have
    given.  If the first of them to fail has (zero-based) rank k, the call
    returns [-ENOMEM] and leaves one dangling link per group completed
    before the failure, min (k / 4) N of them; so the registry is left
    empty exactly when the failure is within the first group's four
    allocations or there is no qualifying node. *)
Theorem first_failed_allocation_leaves_dangling_links dt count0 k more more' st :
  concat_node_list st = [] ->
  Forall (fun p => is_int (dt_phandle_count p)) dt ->
  (k < 4 * length (List.filter qualifying dt) + 2)%nat ->
  (exists ret st1,
     mtd_virt_concat_node_create dt count0
       (replicate (4 * length (List.filter qualifying dt) + 2) true ++ more') st
     = Ok (ret, st1)
     /\ concat_node_list st1
        = map (fun p => Live (pending_item p)) (List.filter qualifying dt))
  /\ exists st',
       mtd_virt_concat_node_create dt count0 (replicate k true ++ false :: more) st
       = Ok (- ENOMEM, st')
       /\ concat_node_list st'
          = replicate (Nat.min (k / 4) (length (List.filter qualifying dt))) Freed
       /\ (concat_node_list st' = []
           <-> (k < 4)%nat \/ length (List.filter qualifying dt) = 0%nat).
Proof.
  intros Hempty Hint Hk. split.
  - exact (node_create_enough dt count0 more' st Hempty Hint).
  - destruct (node_create_first_failure dt count0 k more st Hempty Hint Hk)
      as (st' & Hrun & Hl).
    exists st'. split; [exact Hrun|]. split; [exact Hl|].
    rewrite Hl.
    set (n := length (List.filter qualifying dt)).
    assert (k / 4 = 0 <-> k < 4)%nat as Hdiv.
    { split; intros H.
      - apply Nat.div_small_iff in H; lia.
      - apply Nat.div_small. exact H. }
    split.
    + intros Hnil.
      assert (Nat.min (k / 4) n = 0)%nat as Hmin.
      { destruct (Nat.min (k / 4) n); [reflexivity|discriminate Hnil]. }
      destruct (Nat.min_dec (k / 4) n) as [He|He]; rewrite He in Hmin.
      * left. apply Hdiv. exact Hmin.
      * right. exact Hmin.
    + intros [Hlt|Hz].
      * apply Hdiv in Hlt. rewrite Hlt. reflexivity.
      * rewrite Hz, Nat.min_0_r. reflexivity.
Qed.

Lemma first_failed_allocation_leaves_dangling_links_witness :
  concat_node_list init_state = []
  /\ Forall (fun p => is_int (dt_phandle_count p)) dt_AB_CD
  /\ (9 < 4 * length (List.filter qualifying dt_AB_CD) + 2)%nat
  /\ (exists ret st1,
        mtd_virt_concat_node_create dt_AB_CD 0
          (replicate (4 * length (List.filter qualifying dt_AB_CD) + 2) true ++ [false])
          init_state
        = Ok (ret, st1)
        /\ concat_node_list st1
           = map (fun p => Live (pending_item p)) (List.filter qualifying dt_AB_CD))
  /\ exists st',
       mtd_virt_concat_node_create dt_AB_CD 0 (replicate 9 true ++ false :: [])
         init_state
       = Ok (- ENOMEM, st')
       /\ concat_node_list st'
          = replicate (Nat.min (9 / 4) (length (List.filter qualifying dt_AB_CD))) Freed
       /\ (concat_node_list st' = []
           <-> (9 < 4)%nat \/ length (List.filter qualifying dt_AB_CD) = 0%nat).
Proof.
  assert (Forall (fun p => is_int (dt_phandle_count p)) dt_AB_CD) as Hint
    by (apply dt_counts_int; reflexivity).
  assert (9 < 4 * length (List.filter qualifying dt_AB_CD) + 2)%nat as Hk
    by (simpl; lia).
  split; [reflexivity|]. split; [exact Hint|]. split; [exact Hk|].
  exact (first_failed_allocation_leaves_dangling_links dt_AB_CD 0 9 [] [false]
           init_state eq_refl Hint Hk).
Defined.

Lemma scan_none_available dt : forall cnt heap l,
  Forall (fun p => dt_available p = false) dt ->
  scan_dt dt cnt heap l = ScanDone cnt heap l.
Proof.
  induction dt as [|p dt IH]; intros cnt heap l Hna; simpl; [reflexivity|].
  apply Forall_cons in Hna as [-> Hna]. simpl. apply IH. exact Hna.
Qed.

(** X19.  When no annotated node is available (in particular when the
    configuration has none), a first scan whose two final allocations
    succeed adds no group, makes no call, and returns the value the local
    [count] had on entry, which the function never assigned. *)
Theorem scan_without_available_node_returns_initial_count dt count0 heap st :
  concat_node_list st = [] ->
  Forall (fun p => dt_available p = false) dt ->
  never_fails heap ->
  mtd_virt_concat_node_create dt count0 heap st = Ok (count0, st).
Proof.
  intros Hempty Hna Hheap. unfold mtd_virt_concat_node_create. rewrite Hempty.
  rewrite (scan_none_available dt count0 heap [] Hna).
  destruct (kalloc_never_fails _ Hheap) as (h1 & -> & Hh1). simpl.
  destruct (kalloc_never_fails _ Hh1) as (h2 & -> & Hh2). simpl.
  destruct st as [l tr]. simpl in *. subst l. reflexivity.
Qed.

Lemma scan_without_available_node_returns_initial_count_witness :
  concat_node_list init_state = []
  /\ Forall (fun p => dt_available p = false) dt_none_available
  /\ never_fails []
  /\ mtd_virt_concat_node_create dt_none_available 77 [] init_state
     = Ok (77, init_state).
Proof.
  assert (Forall (fun p => dt_available p = false) dt_none_available) as Hna
    by (repeat constructor).
  assert (never_fails []) as Hheap by constructor.
  split; [reflexivity|]. split; [exact Hna|]. split; [exact Hheap|].
  exact (scan_without_available_node_returns_initial_count dt_none_available 77 []
           init_state eq_refl Hna Hheap).
Defined.

Lemma node_create_group_contents dt count0 heap st k p :
  concat_node_list st = [] ->
  Forall (fun p => is_int (dt_phandle_count p)) dt ->
  never_fails heap ->
  List.filter qualifying dt !! k = Some p ->
  exists ret st' item c,
    mtd_virt_concat_node_create dt count0 heap st = Ok (ret, st')
    /\ concat_node_list st' !! k = Some (Live item)
    /\ concat item = Some c
    /\ (forall i, 0 <= i < dt_phandle_count p ->
          expected item !! Z.to_nat i = Some (dt_parse_phandle p i))
    /\ length (expected item) = Z.to_nat (dt_phandle_count p)
    /\ num_subdev c = 0
    /\ subdev c = replicate (Z.to_nat (dt_phandle_count p)) None.
Proof.
  intros Hempty Hint Hheap Hk. unfold mtd_virt_concat_node_create. rewrite Hempty.
  destruct (scan_dt_ok dt count0 heap [] Hint Hheap) as (h1 & Hh1 & ->).
  destruct (kalloc_never_fails _ Hh1) as (h2 & -> & Hh2). simpl.
  destruct (kalloc_never_fails _ Hh2) as (h3 & -> & Hh3). simpl.
  eexists. eexists. exists (pending_item p). eexists.
  split; [reflexivity|]. simpl. split; [|split; [reflexivity|]].
  - change (map (fun p0 => Live (pending_item p0)) (List.filter qualifying dt))
      with ((fun p0 => Live (pending_item p0)) <$> List.filter qualifying dt).
    rewrite list_lookup_fmap, Hk. reflexivity.
  - split; [|split; [|split; reflexivity]].
    + intros i Hi. pose proof (pending_item_nodes p (Z.to_nat i)) as Hnode.
      rewrite Z2Nat.id in Hnode by lia. apply Hnode. lia.
    + unfold expected. simpl. rewrite length_map, length_seq. reflexivity.
Qed.

(** X20.  After a first scan in which no allocation fails, the k-th group
    of the registry is the k-th qualifying node of the configuration: its
    i-th expected identifier is what [of_parse_phandle] returned for
    index i, null when the reference did not resolve, in declared order
    and as many as the node declares; it has no member and all its member
    cells are null. *)
Theorem scan_keeps_references_in_declared_order dt count0 heap st k p :
  concat_node_list st = [] ->
  Forall (fun p => is_int (dt_phandle_count p)) dt ->
  never_fails heap ->
  List.filter qualifying dt !! k = Some p ->
  exists ret st' item c,
    mtd_virt_concat_node_create dt count0 heap st = Ok (ret, st')
    /\ concat_node_list st' !! k = Some (Live item)
    /\ concat item = Some c
    /\ (forall i, 0 <= i < dt_phandle_count p ->
          expected item !! Z.to_nat i = Some (dt_parse_phandle p i))
    /\ length (expected item) = Z.to_nat (dt_phandle_count p)
    /\ num_subdev c = 0
    /\ subdev c = replicate (Z.to_nat (dt_phandle_count p)) None.
Proof. exact (node_create_group_contents dt count0 heap st k p). Qed.

Lemma scan_keeps_references_in_declared_order_witness :
  concat_node_list init_state = []
  /\ Forall (fun p => is_int (dt_phandle_count p)) dt_AB_Cnull
  /\ never_fails []
  /\ List.filter qualifying dt_AB_Cnull !! 1%nat
     = Some (concat_group 11%positive true [Some node_C; None])
  /\ exists ret st' item c,
       mtd_virt_concat_node_create dt_AB_Cnull 0 [] init_state = Ok (ret, st')
       /\ concat_node_list st' !! 1%nat = Some (Live item)
       /\ concat item = Some c
       /\ (forall i,
             0 <= i < dt_phandle_count (concat_group 11%positive true [Some node_C; None]) ->
             expected item !! Z.to_nat i
             = Some (dt_parse_phandle
                       (concat_group 11%positive true [Some node_C; None]) i))
       /\ length (expected item)
          = Z.to_nat (dt_phandle_count (concat_group 11%positive true [Some node_C; None]))
       /\ num_subdev c = 0
       /\ subdev c
          = replicate
              (Z.to_nat (dt_phandle_count
                           (concat_group 11%positive true [Some node_C; None]))) None.
Proof.
  assert (Forall (fun p => is_int (dt_phandle_count p)) dt_AB_Cnull) as Hint
    by (apply dt_counts_int; reflexivity).
  assert (never_fails []) as Hheap by constructor.
  split; [reflexivity|]. split; [exact Hint|]. split; [exact Hheap|].
  split; [reflexivity|].
  exact (scan_keeps_references_in_declared_order dt_AB_Cnull 0 [] init_state 1%nat
           (concat_group 11%positive true [Some node_C; None])
           eq_refl Hint Hheap eq_refl).
Defined.

(** ** Arrival order and unresolved references *)

(** X21.  A group the scan reaches, empty so far, is offered devices
    whose nodes are a rearrangement of its expected nodes: every offer is
    accepted, the group ends complete with the devices as members in the
    order of the offers, and the round of the join loop on it (the name
    being allocated) hands the engine the devices in that order, not in
    the declared one. *)
Theorem engine_receives_devices_in_arrival_order
  pre cnt nds post devs core heap heap' tr :
  (forall d, d ∈ devs -> Forall (passed d) pre) ->
  item_wf {| count := cnt; nodes := nds;
             concat := Some {| num_subdev := 0;
                               subdev := replicate (Z.to_nat cnt) None |} |} ->
  map (fun d => of_node (dev d)) devs ≡ₚ nds ->
  kalloc heap = (true, heap') ->
  exists c' nm r tail,
    offer_all (pre ++ Live {| count := cnt; nodes := nds;
                              concat := Some {| num_subdev := 0;
                                                subdev := replicate (Z.to_nat cnt) None |} |}
                   :: post) devs
    = Ok (replicate (length devs) true,
          pre ++ Live {| count := cnt; nodes := nds; concat := Some c' |} :: post)
    /\ complete {| count := cnt; nodes := nds; concat := Some c' |}
    /\ members c' = map Some devs
    /\ create_join_item core {| count := cnt; nodes := nds; concat := Some c' |} heap tr
       = Ok r
    /\ round_trace r
       = tr ++ EvMtdConcatCreate (map Some devs) (Z.of_nat (length devs)) nm :: tail.
Proof.
  exact (arrival_order_when_reached pre cnt nds post devs core heap heap' tr).
Qed.

Lemma engine_receives_devices_in_arrival_order_witness :
  (forall d, d ∈ [dev_C; dev_A; dev_B] -> Forall (passed d) [])
  /\ item_wf {| count := 3; nodes := [Some node_A; Some node_B; Some node_C];
                concat := Some {| num_subdev := 0;
                                  subdev := replicate (Z.to_nat 3) None |} |}
  /\ map (fun d => of_node (dev d)) [dev_C; dev_A; dev_B]
     ≡ₚ [Some node_A; Some node_B; Some node_C]
  /\ kalloc [] = (true, [])
  /\ exists c' nm r tail,
       offer_all ([] ++ Live {| count := 3;
                                nodes := [Some node_A; Some node_B; Some node_C];
                                concat := Some {| num_subdev := 0;
                                                  subdev := replicate (Z.to_nat 3) None |} |}
                     :: []) [dev_C; dev_A; dev_B]
       = Ok (replicate (length [dev_C; dev_A; dev_B]) true,
             [] ++ Live {| count := 3;
                           nodes := [Some node_A; Some node_B; Some node_C];
                           concat := Some c' |} :: [])
       /\ complete {| count := 3; nodes := [Some node_A; Some node_B; Some node_C];
                      concat := Some c' |}
       /\ members c' = map Some [dev_C; dev_A; dev_B]
       /\ create_join_item core_ok
            {| count := 3; nodes := [Some node_A; Some node_B; Some node_C];
               concat := Some c' |} [] []
          = Ok r
       /\ round_trace r
          = [] ++ EvMtdConcatCreate (map Some [dev_C; dev_A; dev_B])
                    (Z.of_nat (length [dev_C; dev_A; dev_B])) nm :: tail.
Proof.
  assert (forall d, d ∈ [dev_C; dev_A; dev_B] -> Forall (passed d) []) as Hpre
    by (intros; constructor).
  assert (item_wf {| count := 3; nodes := [Some node_A; Some node_B; Some node_C];
                     concat := Some {| num_subdev := 0;
                                       subdev := replicate (Z.to_nat 3) None |} |})
    as Hwf by concrete_item_wf.
  assert (map (fun d => of_node (dev d)) [dev_C; dev_A; dev_B]
          ≡ₚ [Some node_A; Some node_B; Some node_C]) as Hperm.
  { simpl. apply perm_trans with [Some node_A; Some node_C; Some node_B].
    - apply perm_swap.
    - apply perm_skip, perm_swap. }
  split; [exact Hpre|]. split; [exact Hwf|]. split; [exact Hperm|].
  split; [reflexivity|].
  exact (engine_receives_devices_in_arrival_order [] 3
           [Some node_A; Some node_B; Some node_C] [] [dev_C; dev_A; dev_B]
           core_ok [] [] [] Hpre Hwf Hperm eq_refl).
Defined.

(** X22.  A group the scan reaches that is incomplete and holds a null
    expected identifier (an unresolved reference) accepts a device that has
    no configuration node: null equals null in the comparison, and the
    device becomes the group's next member. *)
Theorem null_reference_matches_device_without_node pre item c post mtd :
  Forall (passed mtd) pre ->
  item_wf item -> concat item = Some c -> ~ complete item ->
  None ∈ expected item ->
  of_node (dev mtd) = None ->
  mtd_virt_concat_add (pre ++ Live item :: post) mtd
  = Ok (true, pre ++ Live (accept item c mtd) :: post)
  /\ (forall c', concat (accept item c mtd) = Some c' ->
        members c' = members c ++ [Some mtd]).
Proof. exact (null_entry_accepts_anonymous_device pre item c post mtd). Qed.

Lemma null_reference_matches_device_without_node_witness :
  Forall (passed dev_anon) [Live group_AB_half]
  /\ item_wf group_Cnull_empty
  /\ concat group_Cnull_empty = Some {| num_subdev := 0; subdev := [None; None] |}
  /\ ~ complete group_Cnull_empty
  /\ None ∈ expected group_Cnull_empty
  /\ of_node (dev dev_anon) = None
  /\ mtd_virt_concat_add ([Live group_AB_half] ++ Live group_Cnull_empty :: []) dev_anon
     = Ok (true,
           [Live group_AB_half]
           ++ Live (accept group_Cnull_empty
                      {| num_subdev := 0; subdev := [None; None] |} dev_anon) :: [])
  /\ (forall c',
        concat (accept group_Cnull_empty
                  {| num_subdev := 0; subdev := [None; None] |} dev_anon) = Some c' ->
        members c'
        = members {| num_subdev := 0; subdev := [None; None] |} ++ [Some dev_anon]).
Proof.
  assert (Forall (passed dev_anon) [Live group_AB_half]) as Hpre.
  { constructor; [|constructor]. exists group_AB_half.
    split; [reflexivity|]. split; [concrete_item_wf|]. split; [not_complete|].
    unfold expects, expected. simpl. intros H.
    repeat (apply elem_of_cons in H as [H|H]; [discriminate H|]).
    inversion H. }
  assert (item_wf group_Cnull_empty) as Hwf by concrete_item_wf.
  assert (~ complete group_Cnull_empty) as Hopen by not_complete.
  assert (None ∈ expected group_Cnull_empty) as Hnull
    by (apply list_elem_of_further, list_elem_of_here).
  split; [exact Hpre|]. split; [exact Hwf|]. split; [reflexivity|].
  split; [exact Hopen|]. split; [exact Hnull|]. split; [reflexivity|].
  exact (null_reference_matches_device_without_node [Live group_AB_half]
           group_Cnull_empty {| num_subdev := 0; subdev := [None; None] |} []
           dev_anon Hpre Hwf eq_refl Hopen Hnull eq_refl).
Defined.

(** ** Unresolved references, from the scan to the offer *)

(** C10, as the driver has it.  The scan stores what resolving a declared
    reference returned without checking it: when no allocation fails and
    the k-th qualifying node has a reference that does not resolve, the
    k-th group of the registry holds a null expected identifier.  And for
    any registry in which the scan of an offer reaches an incomplete group
    holding a null expected identifier (every group before it being live,
    incomplete and not expecting the device), offering a device that
    carries no configuration node returns [true] and appends that device
    to that group's members. *)
Theorem unchecked_null_reference_accepts_device_without_node
  dt count0 heap st k p i pre item c post mtd :
  concat_node_list st = [] ->
  Forall (fun p => is_int (dt_phandle_count p)) dt ->
  never_fails heap ->
  List.filter qualifying dt !! k = Some p ->
  0 <= i < dt_phandle_count p ->
  dt_parse_phandle p i = None ->
  Forall (passed mtd) pre ->
  item_wf item -> concat item = Some c -> ~ complete item ->
  None ∈ expected item ->
  of_node (dev mtd) = None ->
  (exists ret st' g,
     mtd_virt_concat_node_create dt count0 heap st = Ok (ret, st')
     /\ concat_node_list st' !! k = Some (Live g)
     /\ None ∈ expected g)
  /\ mtd_virt_concat_add (pre ++ Live item :: post) mtd
     = Ok (true, pre ++ Live (accept item c mtd) :: post)
  /\ (forall c', concat (accept item c mtd) = Some c' ->
        members c' = members c ++ [Some mtd]).
Proof.
  intros Hempty Hint Hheap Hk Hi Hunres Hpre Hwf Hc Hopen Hnull Hanon. split.
  - destruct (node_create_group_contents dt count0 heap st k p Hempty Hint Hheap Hk)
      as (ret & st' & g & cg & Hrun & Hg & _ & Hnodes & _).
    exists ret, st', g. split; [exact Hrun|]. split; [exact Hg|].
    apply (list_elem_of_lookup_2 _ (Z.to_nat i)).
    rewrite (Hnodes i Hi), Hunres. reflexivity.
  - exact (null_entry_accepts_anonymous_device pre item c post mtd
             Hpre Hwf Hc Hopen Hnull Hanon).
Qed.

Lemma unchecked_null_reference_accepts_device_without_node_witness :
  concat_node_list init_state = []
  /\ Forall (fun p => is_int (dt_phandle_count p)) dt_AB_Cnull
  /\ never_fails []
  /\ List.filter qualifying dt_AB_Cnull !! 1%nat
     = Some (concat_group 11%positive true [Some node_C; None])
  /\ 0 <= 1 < dt_phandle_count (concat_group 11%positive true [Some node_C; None])
  /\ dt_parse_phandle (concat_group 11%positive true [Some node_C; None]) 1 = None
  /\ Forall (passed dev_anon) [Live group_AB_half]
  /\ item_wf group_Cnull_empty
  /\ concat group_Cnull_empty = Some {| num_subdev := 0; subdev := [None; None] |}
  /\ ~ complete group_Cnull_empty
  /\ None ∈ expected group_Cnull_empty
  /\ of_node (dev dev_anon) = None
  /\ (exists ret st' g,
        mtd_virt_concat_node_create dt_AB_Cnull 0 [] init_state = Ok (ret, st')
        /\ concat_node_list st' !! 1%nat = Some (Live g)
        /\ None ∈ expected g)
  /\ mtd_virt_concat_add ([Live group_AB_half] ++ Live group_Cnull_empty :: []) dev_anon
     = Ok (true,
           [Live group_AB_half]
           ++ Live (accept group_Cnull_empty
                      {| num_subdev := 0; subdev := [None; None] |} dev_anon) :: [])
  /\ (forall c',
        concat (accept group_Cnull_empty
                  {| num_subdev := 0; subdev := [None; None] |} dev_anon) = Some c' ->
        members c'
        = members {| num_subdev := 0; subdev := [None; None] |} ++ [Some dev_anon]).
Proof.
  assert (Forall (fun p => is_int (dt_phandle_count p)) dt_AB_Cnull) as Hint
    by (apply dt_counts_int; reflexivity).
  assert (never_fails []) as Hheap by constructor.
  assert (0 <= 1 < dt_phandle_count (concat_group 11%positive true [Some node_C; None]))
    as Hi by (simpl; lia).
  assert (Forall (passed dev_anon) [Live group_AB_half]) as Hpre.
  { constructor; [|constructor]. exists group_AB_half.
    split; [reflexivity|]. split; [concrete_item_wf|]. split; [not_complete|].
    unfold expects, expected. simpl. intros H.
    repeat (apply elem_of_cons in H as [H|H]; [discriminate H|]).
    inversion H. }
  assert (item_wf group_Cnull_empty) as Hwf by concrete_item_wf.
  assert (~ complete group_Cnull_empty) as Hopen by not_complete.
  assert (None ∈ expected group_Cnull_empty) as Hnull
    by (apply list_elem_of_further, list_elem_of_here).
  split; [reflexivity|]. split; [exact Hint|]. split; [exact Hheap|].
  split; [reflexivity|]. split; [exact Hi|]. split; [reflexivity|].
  split; [exact Hpre|]. split; [exact Hwf|]. split; [reflexivity|].
  split; [exact Hopen|]. split; [exact Hnull|]. split; [reflexivity|].
  exact (unchecked_null_reference_accepts_device_without_node
           dt_AB_Cnull 0 [] init_state 1%nat
           (concat_group 11%positive true [Some node_C; None]) 1
           [Live group_AB_half] group_Cnull_empty
           {| num_subdev := 0; subdev := [None; None] |} [] dev_anon
           eq_refl Hint Hheap eq_refl Hi eq_refl Hpre Hwf eq_refl Hopen Hnull eq_refl).
Defined.

(** C10 as stated fails: the scan of [A; unresolved], [C; unresolved]
    leaves two empty groups that each hold a null identifier; a device
    without a configuration node goes to the first of them, so the second,
    although incomplete and holding a null entry, does not receive it. *)
Lemma anonymous_device_goes_to_first_null_group :
  concat_node_list (discovered dt_Anull_Cnull)
  = [Live group_Anull_empty; Live group_Cnull_empty]
  /\ ~ complete group_Cnull_empty
  /\ None ∈ expected group_Cnull_empty
  /\ of_node (dev dev_anon) = None
  /\ mtd_virt_concat_add [Live group_Anull_empty; Live group_Cnull_empty] dev_anon
     = Ok (true,
           [Live (accept group_Anull_empty
                    {| num_subdev := 0; subdev := [None; None] |} dev_anon);
            Live group_Cnull_empty])
  /\ ~ (forall (l : list slot) (i : nat) item c mtd,
          l !! i = Some (Live item) -> concat item = Some c ->
          ~ complete item -> None ∈ expected item -> of_node (dev mtd) = None ->
          exists l' c',
            mtd_virt_concat_add l mtd = Ok (true, l')
            /\ l' !! i = Some (Live {| count := count item; nodes := nodes item;
                                       concat := Some c' |})
            /\ members c' = members c ++ [Some mtd]).
Proof.
  assert (~ complete group_Cnull_empty) as Hopen by not_complete.
  assert (None ∈ expected group_Cnull_empty) as Hnull
    by (apply list_elem_of_further, list_elem_of_here).
  split; [reflexivity|]. split; [exact Hopen|]. split; [exact Hnull|].
  split; [reflexivity|]. split; [reflexivity|].
  intros Hclaim.
  destruct (Hclaim [Live group_Anull_empty; Live group_Cnull_empty] 1%nat
              group_Cnull_empty {| num_subdev := 0; subdev := [None; None] |}
              dev_anon eq_refl eq_refl Hopen Hnull eq_refl)
    as (l' & c' & Hrun & Hl' & Hmem).
  vm_compute in Hrun. injection Hrun as <-.
  vm_compute in Hl'. injection Hl' as <-.
  vm_compute in Hmem. discriminate Hmem.
Qed.
